(** * consul-k8s: the Cluster custom resource, its admission webhook,
    namespace resolution and the endpoints reconciliation engine.

    The development follows the Go packages of the repository:
    - [Common]        api/common/common.go (constants);
    - [Metav1], [Capi], [Cmp], [Admission]
                      the parts of the imported libraries the code relies on;
    - [V1alpha1]      api/v1alpha1/cluster_types.go and cluster_webhook.go;
    - [Apiserver]     creations of Cluster resources admitted by the webhook;
    - [Strings]       strings.Replace, as escapeJSONPointer calls it;
    - [ConnectInject] the namespace resolution exercised by TestConsulNamespace
                      and the escapeJSONPointer helper of the handler's tests;
    - [Engine]        the reconciliation engine of the specification;
    - [Wire]          the plan of the engine executed call by call. *)

From Stdlib Require Import ZArith NArith Ascii String List Bool Lia.
From stdpp Require Import gmap strings list fin_maps sets.

Set Warnings "-register-all".
Local Open Scope string_scope.
Local Open Scope list_scope.

(* ===================================================================== *)
(** * Package common *)
(* ===================================================================== *)

Module Common.

Definition ServiceDefaults : string := "servicedefaults".
Definition ProxyDefaults : string := "proxydefaults".
Definition Global : string := "global".
Definition Cluster : string := "cluster".
Definition DefaultConsulNamespace : string := "default".
Definition WildcardNamespace : string := "*".
Definition SourceKey : string := "external-source".
Definition DatacenterKey : string := "consul.hashicorp.com/source-datacenter".
Definition SourceValue : string := "kubernetes".

End Common.

(* ===================================================================== *)
(** * Go values the code relies on *)
(* ===================================================================== *)

(** A Go slice is either [nil] or a (possibly empty) sequence: [var s []T]
    is [nilSlice], [[]T{}] is [Slice []]. *)
Inductive slice (A : Type) : Type :=
| nilSlice
| Slice (l : list A).
Arguments nilSlice {A}.
Arguments Slice {A} l.

Definition elems {A} (s : slice A) : list A :=
  match s with
  | nilSlice => []
  | Slice l => l
  end.

(** The builtin [append(s, x)]: the result is never nil. *)
Definition append {A} (s : slice A) (x : A) : slice A :=
  Slice (elems s ++ [x]).

(** Go's [(T, error)] results. *)
Inductive result (A : Type) : Type :=
| Ok (a : A)
| Err (e : string).
Arguments Ok {A} a.
Arguments Err {A} e.

(** The double quote character, for messages built with [%s] inside quotes. *)
Definition dquote : string := String (ascii_of_nat 34) EmptyString.

(** ** k8s.io/apimachinery/pkg/apis/meta/v1 *)
Module Metav1.

Record TypeMeta := {
  Kind : string;
  APIVersion : string
}.

Record ObjectMeta := {
  Name : string;
  Namespace : string;
  Labels : gmap string string;
  Annotations : gmap string string;
  Finalizers : slice string
}.

End Metav1.

(** ** github.com/hashicorp/consul/api *)
Module Capi.

Definition ClusterConfig : string := "cluster".

Record TransparentProxyClusterConfig := {
  CatalogDestinationsOnly : bool
}.

Record ClusterConfigEntry := {
  Kind : string;
  Name : string;
  Namespace : string;
  TransparentProxy : TransparentProxyClusterConfig;
  Meta : option (gmap string string);
  CreateIndex : N;
  ModifyIndex : N
}.

(** The [ConfigEntry] interface: a pointer to a [ClusterConfigEntry]
    (possibly a nil pointer), or a value of any other implementing type
    (ServiceConfigEntry, ProxyConfigEntry, ...), of which only the Go type
    name, kind and name are kept. *)
Inductive ConfigEntry :=
| ClusterEntry (p : option ClusterConfigEntry)
| OtherEntry (goType kind name : string).

End Capi.

(** ** github.com/google/go-cmp/cmp and cmpopts *)
Module Cmp.

(** Values as [cmp.Equal] walks them by reflection. *)
Inductive Value :=
| VString (s : string)
| VBool (b : bool)
| VUint (n : N)
| VMap (m : option (gmap string string))
| VStruct (ty : string) (fields : list (string * Value))
| VPtr (p : option Value).

Inductive Option :=
| IgnoreFields (ty : string) (names : list string)
| IgnoreUnexported (tys : list string)
| EquateEmpty.

Definition inb (s : string) (l : list string) : bool :=
  existsb (String.eqb s) l.

(** A field name is unexported when it starts with a lower-case letter. *)
Definition unexported (name : string) : bool :=
  match name with
  | EmptyString => false
  | String c _ => (97 <=? nat_of_ascii c)%nat && (nat_of_ascii c <=? 122)%nat
  end.

Definition ignored (opts : list Option) (ty name : string) : bool :=
  existsb (fun o =>
    match o with
    | IgnoreFields ty' names => String.eqb ty ty' && inb name names
    | IgnoreUnexported tys => inb ty tys && unexported name
    | EquateEmpty => false
    end) opts.

Definition equateEmpty (opts : list Option) : bool :=
  existsb (fun o => match o with EquateEmpty => true | _ => false end) opts.

Definition mapLen (m : option (gmap string string)) : nat :=
  match m with
  | None => 0
  | Some m => size m
  end.

Definition mapEqual (eqEmpty : bool) (a b : option (gmap string string)) : bool :=
  if eqEmpty && (mapLen a =? 0)%nat && (mapLen b =? 0)%nat then true
  else match a, b with
       | None, None => true
       | Some m1, Some m2 => bool_decide (m1 = m2)
       | _, _ => false
       end.

Fixpoint Equal (opts : list Option) (x y : Value) {struct x} : bool :=
  match x, y with
  | VString a, VString b => String.eqb a b
  | VBool a, VBool b => Bool.eqb a b
  | VUint a, VUint b => N.eqb a b
  | VMap a, VMap b => mapEqual (equateEmpty opts) a b
  | VStruct t1 f1, VStruct t2 f2 =>
      String.eqb t1 t2 &&
      (fix fields (f1 f2 : list (string * Value)) {struct f1} : bool :=
         match f1, f2 with
         | [], [] => true
         | (n1, v1) :: r1, (n2, v2) :: r2 =>
             String.eqb n1 n2 &&
             (ignored opts t1 n1 || Equal opts v1 v2) &&
             fields r1 r2
         | _, _ => false
         end) f1 f2
  | VPtr None, VPtr None => true
  | VPtr (Some a), VPtr (Some b) => Equal opts a b
  | _, _ => false
  end.

End Cmp.

(** ** k8s.io/api/admission/v1 *)
Module Admissionv1.

Inductive Operation := Create | Update | Delete | Connect.

Definition isCreate (op : Operation) : bool :=
  match op with
  | Create => true
  | _ => false
  end.

End Admissionv1.

(** ** sigs.k8s.io/controller-runtime/pkg/webhook/admission *)
Module Admission.

Record Request := {
  Name : string;
  Namespace : string;
  Operation : Admissionv1.Operation;
  Raw : string
}.

Record Response := {
  Allowed : bool;
  Code : Z;
  Reason : string;
  Message : string
}.

Definition StatusOK : Z := 200.
Definition StatusBadRequest : Z := 400.
Definition StatusInternalServerError : Z := 500.

(** [admission.Errored(code, err)]. *)
Definition Errored (code : Z) (err : string) : Response :=
  {| Allowed := false; Code := code; Reason := ""; Message := err |}.

(** [admission.Allowed(reason)]. *)
Definition allowed (reason : string) : Response :=
  {| Allowed := true; Code := StatusOK; Reason := reason; Message := "" |}.

End Admission.

(* ===================================================================== *)
(** * Package v1alpha1: cluster_types.go *)
(* ===================================================================== *)

Module V1alpha1.

Definition ClusterKubeKind : string := "cluster".

(** The condition types of the package's status (status.go is used here
    only through the fields the Cluster methods read and write). *)
Inductive ConditionStatus := ConditionTrue | ConditionFalse | ConditionUnknown.

Record Condition := {
  Type_ : string;
  CondStatus : ConditionStatus;
  LastTransitionTime : Z;
  CondReason : string;
  CondMessage : string
}.

Record Status := {
  Conditions : list Condition;
  LastSyncedTime : option Z
}.

Record TransparentProxyClusterConfig := {
  CatalogDestinationsOnly : bool
}.

Record ClusterSpec := {
  TransparentProxy : TransparentProxyClusterConfig
}.

Record Cluster := {
  TypeMeta : Metav1.TypeMeta;
  ObjectMeta : Metav1.ObjectMeta;
  Spec : ClusterSpec;
  status : Status
}.

Record ClusterList := {
  Items : list Cluster
}.

Definition toConsul (p : TransparentProxyClusterConfig) : Capi.TransparentProxyClusterConfig :=
  {| Capi.CatalogDestinationsOnly := CatalogDestinationsOnly p |}.

Definition GetObjectMeta (c : Cluster) : Metav1.ObjectMeta := ObjectMeta c.

Definition Finalizers (c : Cluster) : slice string :=
  Metav1.Finalizers (ObjectMeta c).

(** The assignment [in.ObjectMeta.Finalizers = fs]. *)
Definition setFinalizers (fs : slice string) (c : Cluster) : Cluster :=
  {| TypeMeta := TypeMeta c;
     ObjectMeta :=
       {| Metav1.Name := Metav1.Name (ObjectMeta c);
          Metav1.Namespace := Metav1.Namespace (ObjectMeta c);
          Metav1.Labels := Metav1.Labels (ObjectMeta c);
          Metav1.Annotations := Metav1.Annotations (ObjectMeta c);
          Metav1.Finalizers := fs |};
     Spec := Spec c;
     status := status c |}.

Definition AddFinalizer (name : string) (c : Cluster) : Cluster :=
  setFinalizers (append (Finalizers c) name) c.

(** The loop of [RemoveFinalizer]: [newFinalizers] starts as the nil slice
    and receives every old finalizer different from [name]. *)
Definition RemoveFinalizer (name : string) (c : Cluster) : Cluster :=
  let newFinalizers :=
    fold_left
      (fun (newFinalizers : slice string) (oldF : string) =>
         if negb (String.eqb oldF name) then append newFinalizers oldF
         else newFinalizers)
      (elems (Finalizers c)) nilSlice in
  setFinalizers newFinalizers c.

Definition ConsulKind (c : Cluster) : string := Capi.ClusterConfig.
Definition ConsulMirroringNS (c : Cluster) : string := Common.DefaultConsulNamespace.
Definition KubeKind (c : Cluster) : string := ClusterKubeKind.
Definition ConsulName (c : Cluster) : string := Metav1.Name (ObjectMeta c).
Definition ConsulGlobalResource (c : Cluster) : bool := true.
Definition KubernetesName (c : Cluster) : string := Metav1.Name (ObjectMeta c).

Section WithMeta.

(** [meta(datacenter)] is a helper of the package declared outside
    cluster_types.go; the code below is parametric in it. *)
Variable meta : string -> option (gmap string string).

Definition ToConsul (c : Cluster) (datacenter : string) : Capi.ConfigEntry :=
  Capi.ClusterEntry (Some
    {| Capi.Kind := ConsulKind c;
       Capi.Name := ConsulName c;
       Capi.Namespace := "";
       Capi.TransparentProxy := toConsul (TransparentProxy (Spec c));
       Capi.Meta := meta datacenter;
       Capi.CreateIndex := 0%N;
       Capi.ModifyIndex := 0%N |}).

(** Reflection of a [*capi.ClusterConfigEntry] for [cmp.Equal]. *)
Definition reflectEntry (e : Capi.ClusterConfigEntry) : Cmp.Value :=
  Cmp.VStruct "ClusterConfigEntry"
    [ ("Kind", Cmp.VString (Capi.Kind e));
      ("Name", Cmp.VString (Capi.Name e));
      ("Namespace", Cmp.VString (Capi.Namespace e));
      ("TransparentProxy",
         Cmp.VStruct "TransparentProxyClusterConfig"
           [ ("CatalogDestinationsOnly",
              Cmp.VBool (Capi.CatalogDestinationsOnly (Capi.TransparentProxy e))) ]);
      ("Meta", Cmp.VMap (Capi.Meta e));
      ("CreateIndex", Cmp.VUint (Capi.CreateIndex e));
      ("ModifyIndex", Cmp.VUint (Capi.ModifyIndex e)) ].

Definition reflectPtr (p : option Capi.ClusterConfigEntry) : Cmp.Value :=
  Cmp.VPtr (reflectEntry <$> p).

(** The options [MatchesConsul] passes to [cmp.Equal]. *)
Definition matchOptions : list Cmp.Option :=
  [ Cmp.IgnoreFields "ClusterConfigEntry"
      ["Namespace"; "Meta"; "ModifyIndex"; "CreateIndex"];
    Cmp.IgnoreUnexported [];
    Cmp.EquateEmpty ].

Definition MatchesConsul (c : Cluster) (candidate : Capi.ConfigEntry) : bool :=
  match candidate with
  | Capi.ClusterEntry configEntry =>
      match ToConsul c "" with
      | Capi.ClusterEntry ours =>
          Cmp.Equal matchOptions (reflectPtr ours) (reflectPtr configEntry)
      | Capi.OtherEntry _ _ _ => false
      end
  | Capi.OtherEntry _ _ _ => false
  end.

End WithMeta.

Definition Validate (c : Cluster) (_ : bool) : option string := None.

(** Two clusters that differ at most in their finalizers. *)
Definition sameButFinalizers (c c' : Cluster) : Prop :=
  TypeMeta c' = TypeMeta c /\
  Metav1.Name (ObjectMeta c') = Metav1.Name (ObjectMeta c) /\
  Metav1.Namespace (ObjectMeta c') = Metav1.Namespace (ObjectMeta c) /\
  Metav1.Labels (ObjectMeta c') = Metav1.Labels (ObjectMeta c) /\
  Metav1.Annotations (ObjectMeta c') = Metav1.Annotations (ObjectMeta c) /\
  Spec c' = Spec c /\
  status c' = status c.

(** ** cluster_webhook.go *)

(** The API server as the webhook's client sees it: the Cluster resources
    that exist, and the error of the List call when it fails. *)
Record Client := {
  clusters : list Cluster;
  listFailure : option string
}.

Definition List (cl : Client) : result ClusterList :=
  match listFailure cl with
  | Some err => Err err
  | None => Ok {| Items := clusters cl |}
  end.

Record ClusterWebhook := {
  client : Client;
  decoder : Admission.Request -> result Cluster;
  EnableConsulNamespaces : bool;
  EnableNSMirroring : bool
}.

Definition nameError (cluster : Cluster) : string :=
  KubeKind cluster +:+ " resource name must be " +:+ dquote +:+ Common.Cluster +:+ dquote.

Definition existsError (cluster : Cluster) : string :=
  KubeKind cluster +:+ " resource already defined - only one cluster entry is supported".

Definition validMessage (cluster : Cluster) : string :=
  "valid " +:+ KubeKind cluster +:+ " request".

Definition Handle (v : ClusterWebhook) (req : Admission.Request) : Admission.Response :=
  match decoder v req with
  | Err err => Admission.Errored Admission.StatusBadRequest err
  | Ok cluster =>
      if Admissionv1.isCreate (Admission.Operation req) then
        if negb (String.eqb (KubernetesName cluster) Common.Cluster) then
          Admission.Errored Admission.StatusBadRequest (nameError cluster)
        else
          match List (client v) with
          | Err err => Admission.Errored Admission.StatusInternalServerError err
          | Ok clusterList =>
              if (0 <? length (Items clusterList))%nat then
                Admission.Errored Admission.StatusBadRequest (existsError cluster)
              else Admission.allowed (validMessage cluster)
          end
      else Admission.allowed (validMessage cluster)
  end.

(** [InjectDecoder] stores the decoder and returns the nil error. *)
Definition InjectDecoder (d : Admission.Request -> result Cluster) (v : ClusterWebhook)
    : ClusterWebhook * option string :=
  ({| client := client v;
      decoder := d;
      EnableConsulNamespaces := EnableConsulNamespaces v;
      EnableNSMirroring := EnableNSMirroring v |}, None).

(** ** The status methods of cluster_types.go *)

(** The assignment of the embedded [Status] field. *)
Definition setStatus (s : Status) (c : Cluster) : Cluster :=
  {| TypeMeta := TypeMeta c;
     ObjectMeta := ObjectMeta c;
     Spec := Spec c;
     status := s |}.

Section WithConditions.

(** [ConditionSynced] and [Status.GetCondition] are declared in the
    package's status.go, outside cluster_types.go; the methods below are
    parametric in them. [GetCondition] returns a pointer: [None] is nil. *)
Variable ConditionSynced : string.
Variable GetCondition : Status -> string -> option Condition.

Definition SyncedCondition (c : Cluster) : ConditionStatus * string * string :=
  match GetCondition (status c) ConditionSynced with
  | None => (ConditionUnknown, "", "")
  | Some cond => (CondStatus cond, CondReason cond, CondMessage cond)
  end.

Definition SyncedConditionStatus (c : Cluster) : ConditionStatus :=
  match GetCondition (status c) ConditionSynced with
  | None => ConditionUnknown
  | Some cond => CondStatus cond
  end.

(** [now] is the instant [metav1.Now()] reads from the clock. *)
Definition SetSyncedCondition (now : Z) (st : ConditionStatus) (reason message : string)
    (c : Cluster) : Cluster :=
  setStatus
    {| Conditions :=
         [ {| Type_ := ConditionSynced;
              CondStatus := st;
              LastTransitionTime := now;
              CondReason := reason;
              CondMessage := message |} ];
       LastSyncedTime := LastSyncedTime (status c) |} c.

End WithConditions.

(** [time] is a [*metav1.Time]: [None] is the nil pointer. *)
Definition SetLastSyncedTime (time : option Z) (c : Cluster) : Cluster :=
  setStatus {| Conditions := Conditions (status c); LastSyncedTime := time |} c.

Definition DefaultNamespaceFields (c : Cluster) (_ : bool) (_ : string) (_ : bool)
    (_ : string) : Cluster := c.

End V1alpha1.

(* ===================================================================== *)
(** * The API server in front of the webhook *)
(* ===================================================================== *)

(** The webhook is registered for the creation of Cluster resources with
    [failurePolicy=fail]: the API server sends the object to create in a
    request of operation Create, and stores it only when [Handle] allows
    the request. Requests are admitted one at a time. *)
Module Apiserver.

Import V1alpha1.

(** A creation as the API server receives it: the request (its operation
    is set by the server), what the webhook's decoder makes of it, and the
    error of the webhook's [List] call during this request, if it fails. *)
Record CreateRequest := {
  request : Admission.Request;
  decoded : result Cluster;
  listError : option string
}.

Inductive Event :=
| CreateCluster (r : CreateRequest)
| DeleteCluster (index : nat).

Definition asCreate (req : Admission.Request) : Admission.Request :=
  {| Admission.Name := Admission.Name req;
     Admission.Namespace := Admission.Namespace req;
     Admission.Operation := Admissionv1.Create;
     Admission.Raw := Admission.Raw req |}.

Section WithFlags.

(** The flags of the webhook are arbitrary. *)
Variable enableConsulNamespaces enableNSMirroring : bool.

(** The webhook as it runs during a request, over the stored resources. *)
Definition webhookOver (stored : list Cluster) (r : CreateRequest) : ClusterWebhook :=
  {| client := {| clusters := stored; listFailure := listError r |};
     decoder := fun _ => decoded r;
     EnableConsulNamespaces := enableConsulNamespaces;
     EnableNSMirroring := enableNSMirroring |}.

Definition create (stored : list Cluster) (r : CreateRequest) : list Cluster :=
  if Admission.Allowed (Handle (webhookOver stored r) (asCreate (request r))) then
    match decoded r with
    | Ok c => c :: stored
    | Err _ => stored
    end
  else stored.

Definition apply (stored : list Cluster) (e : Event) : list Cluster :=
  match e with
  | CreateCluster r => create stored r
  | DeleteCluster i => delete i stored
  end.

Definition run (stored : list Cluster) (events : list Event) : list Cluster :=
  fold_left apply events stored.

End WithFlags.

End Apiserver.

(* ===================================================================== *)
(** * Package strings of the Go library *)
(* ===================================================================== *)

Module Strings.

(** [strings.HasPrefix(s, prefix)], on bytes. *)
Fixpoint HasPrefix (s prefix : string) {struct prefix} : bool :=
  match prefix with
  | EmptyString => true
  | String a prefix' =>
      match s with
      | EmptyString => false
      | String b s' => Ascii.eqb a b && HasPrefix s' prefix'
      end
  end.

(** The scan of [strings.Replace(s, old, new, -1)] for a non-empty [old]:
    every occurrence of [old] found from the left, without overlap, is
    replaced by [new]. [skip] counts the bytes of the occurrence just
    replaced that are still to be passed. *)
Fixpoint replaceFrom (old new : string) (skip : nat) (s : string) : string :=
  match s with
  | EmptyString => EmptyString
  | String c rest =>
      match skip with
      | S k => replaceFrom old new k rest
      | O =>
          if HasPrefix s old then
            new +:+ replaceFrom old new (String.length old - 1) rest
          else String c (replaceFrom old new 0 rest)
      end
  end.

(** [strings.Replace(s, old, new, -1)], [old] not empty. *)
Definition ReplaceAll (s old new : string) : string :=
  replaceFrom old new 0 s.

(** [strings.HasSuffix(s, suffix)], on bytes: [suffix] is [s] or the end of
    the rest of [s]. *)
Fixpoint HasSuffix (s suffix : string) {struct s} : bool :=
  String.eqb s suffix ||
  match s with
  | EmptyString => false
  | String _ s' => HasSuffix s' suffix
  end.

End Strings.

(* ===================================================================== *)
(** * Package connectinject: namespace resolution *)
(* ===================================================================== *)

Module ConnectInject.

(** The configuration fields TestConsulNamespace sets on the handler. *)
Record Handler := {
  EnableNamespaces : bool;
  ConsulDestinationNamespace : string;
  EnableK8SNSMirroring : bool;
  K8SNSMirroringPrefix : string
}.

(** Modelled from the spec: the body of [Handler.consulNamespace] is not in
    the sources (only TestConsulNamespace is). Section 4.3 gives the rule
    "when mirroring enabled, destination = prefix + source; else destination
    = configured static namespace"; the [EnableNamespaces] gate in front of
    it is the one every row of the test table below fixes. *)
Definition consulNamespace (h : Handler) (ns : string) : string :=
  if negb (EnableNamespaces h) then ""
  else if EnableK8SNSMirroring h then K8SNSMirroringPrefix h +:+ ns
  else ConsulDestinationNamespace h.

(** A row of the table of TestConsulNamespace. *)
Record NamespaceCase := {
  CaseName : string;
  CaseEnableNamespaces : bool;
  CaseConsulDestinationNamespace : string;
  CaseEnableK8SNSMirroring : bool;
  CaseK8SNSMirroringPrefix : string;
  CaseK8sNamespace : string;
  CaseExpected : string
}.

Definition mkCase (name : string) (en : bool) (dest : string) (mirror : bool)
    (prefix k8sNS expected : string) : NamespaceCase :=
  {| CaseName := name;
     CaseEnableNamespaces := en;
     CaseConsulDestinationNamespace := dest;
     CaseEnableK8SNSMirroring := mirror;
     CaseK8SNSMirroringPrefix := prefix;
     CaseK8sNamespace := k8sNS;
     CaseExpected := expected |}.

(** The seven cases of TestConsulNamespace, in the order of the source. *)
Definition consulNamespaceCases : list NamespaceCase :=
  [ mkCase "namespaces disabled"
      false "default" false "" "namespace" "";
    mkCase "namespaces disabled, mirroring enabled"
      false "default" true "" "namespace" "";
    mkCase "namespaces disabled, mirroring enabled, prefix defined"
      false "default" true "test-" "namespace" "";
    mkCase "namespaces enabled, mirroring disabled"
      true "default" false "" "namespace" "default";
    mkCase "namespaces enabled, mirroring disabled, prefix defined"
      true "default" false "test-" "namespace" "default";
    mkCase "namespaces enabled, mirroring enabled"
      true "default" true "" "namespace" "namespace";
    mkCase "namespaces enabled, mirroring enabled, prefix defined"
      true "default" true "test-" "namespace" "test-namespace" ].

(** The handler a test case builds. *)
Definition caseHandler (tt : NamespaceCase) : Handler :=
  {| EnableNamespaces := CaseEnableNamespaces tt;
     ConsulDestinationNamespace := CaseConsulDestinationNamespace tt;
     EnableK8SNSMirroring := CaseEnableK8SNSMirroring tt;
     K8SNSMirroringPrefix := CaseK8SNSMirroringPrefix tt |}.

(** The assertion of the test body: [require.Equal(tt.Expected, ns)]. *)
Definition casePasses (tt : NamespaceCase) : bool :=
  String.eqb (CaseExpected tt) (consulNamespace (caseHandler tt) (CaseK8sNamespace tt)).

(** The resolution rule exactly as section 4.3 words it, without the gate:
    a function of (mirroring-enabled, prefix, static-destination, source). *)
Definition resolveAsWorded (mirroring : bool) (prefix static source : string) : string :=
  if mirroring then prefix +:+ source else static.

(** ** The helper of the handler's tests *)

(** [escapeJSONPointer] (https://tools.ietf.org/html/rfc6901): first every
    "~" becomes "~0", then every "/" becomes "~1". *)
Definition escapeJSONPointer (s : string) : string :=
  let s := Strings.ReplaceAll s "~" "~0" in
  let s := Strings.ReplaceAll s "/" "~1" in
  s.

(** The decoding of a reference token RFC 6901 (section 4) prescribes:
    first every "~1" becomes "/", then every "~0" becomes "~". It is not
    part of the sources; the escaping is checked against it. *)
Definition unescapeJSONPointer (s : string) : string :=
  let s := Strings.ReplaceAll s "~1" "/" in
  let s := Strings.ReplaceAll s "~0" "~" in
  s.

(** The path of a JSON patch operation on the annotation or label [key],
    as the expected patches of TestHandlerHandle build it. *)
Definition patchPath (parent key : string) : string :=
  parent +:+ escapeJSONPointer key.

End ConnectInject.

(* ===================================================================== *)
(** * The reconciliation engine (specification, sections 3 to 7) *)
(* ===================================================================== *)

(** The engine's code (the endpoints controller) is not among the sources;
    only its tests are. Every definition of this module follows the
    specification, and takes identifiers, ports and metadata keys from the
    expected values of the tests TestReconcile*EndpointWithNamespaces. *)
Module Engine.

(** ** Data model (section 3) *)

(** Modelled from the spec: the namespace-qualified logical service key. *)
Record OwnerKey := {
  KeyNamespace : string;
  KeyName : string
}.

#[global] Instance OwnerKey_eq_dec : EqDecision OwnerKey.
Proof. solve_decision. Defined.

(** Modelled from the spec: the keys of the "structured metadata (owning
    pod name, owning pod namespace, originating endpoints object name)";
    the last two are spelled as the initial services of
    TestReconcileUpdateEndpointWithNamespaces spell them. *)
Definition MetaKeyPodName : string := "pod-name".
Definition MetaKeyKubeServiceName : string := "k8s-service-name".
Definition MetaKeyKubeNS : string := "k8s-namespace".

(** Modelled from the spec: "two kinds: the primary instance and its
    co-located sidecar-proxy instance (... carries a back-reference to the
    primary's ID)". *)
Inductive InstanceKind :=
| Primary
| SidecarProxy (DestinationServiceName DestinationServiceID : string).

(** Modelled from the spec: ServiceInstance, "identity = (ServiceID,
    Namespace); attributes: logical service name, network address, port,
    tags, structured metadata". *)
Record ServiceInstance := {
  ServiceID : string;
  ServiceName : string;
  Namespace : string;
  ServiceAddress : string;
  ServicePort : Z;
  ServiceTags : list string;
  ServiceMeta : gmap string string;
  ServiceKind : InstanceKind
}.

(** Modelled from the spec: HealthCheck, "one per instance, a pass/fail
    flag with human-readable status text, linked by ID to its instance". *)
Record HealthCheck := {
  CheckID : string;
  CheckServiceID : string;
  CheckName : string;
  Passing : bool;
  Output : string
}.

#[global] Instance InstanceKind_eq_dec : EqDecision InstanceKind.
Proof. solve_decision. Defined.

#[global] Instance ServiceInstance_eq_dec : EqDecision ServiceInstance.
Proof. solve_decision. Defined.

(** Modelled from the spec: the ID suffix and the "proxy port" of a
    sidecar-proxy, and the status text of a passing check; suffix and port
    are the expected values of TestReconcileCreateEndpointWithNamespaces. *)
Definition proxySuffix : string := "-sidecar-proxy".
Definition proxyPort : Z := 20000.
Definition kubernetesSuccessReasonMsg : string := "Kubernetes health checks passing".

(** Modelled from the spec: the sidecar-proxy paired with a primary, "ID
    suffixed, port fixed to a proxy port, carries a back-reference to the
    primary's ID"; address, tags and metadata are the primary's. *)
Definition sidecarOf (p : ServiceInstance) : ServiceInstance :=
  {| ServiceID := ServiceID p +:+ proxySuffix;
     ServiceName := ServiceName p +:+ proxySuffix;
     Namespace := Namespace p;
     ServiceAddress := ServiceAddress p;
     ServicePort := proxyPort;
     ServiceTags := ServiceTags p;
     ServiceMeta := ServiceMeta p;
     ServiceKind := SidecarProxy (ServiceName p) (ServiceID p) |}.

(** Modelled from the spec: the "TTL health check initialized passing"
    registered with an instance. *)
Definition checkOf (p : ServiceInstance) : HealthCheck :=
  {| CheckID := default "" (ServiceMeta p !! MetaKeyKubeNS) +:+ "/" +:+ ServiceID p
                  +:+ "/kubernetes-health-check";
     CheckServiceID := ServiceID p;
     CheckName := "Kubernetes Health Check";
     Passing := true;
     Output := kubernetesSuccessReasonMsg |}.

(** Modelled from the spec: "owner metadata matches this key", read off the
    instance's metadata map. *)
Definition ownerMatches (key : OwnerKey) (inst : ServiceInstance) : bool :=
  bool_decide (ServiceMeta inst !! MetaKeyKubeServiceName = Some (KeyName key)) &&
  bool_decide (ServiceMeta inst !! MetaKeyKubeNS = Some (KeyNamespace key)).

(** ** The mesh catalog *)

(** Modelled from the spec: what one agent holds in one mesh namespace.
    The three tables are keyed by the primary's ServiceID: the primary
    instances, the sidecar-proxy of each (found through its back-reference)
    and the health check of each (linked by ID). *)
Record Registry := {
  services : gmap string ServiceInstance;
  proxies : gmap string ServiceInstance;
  checks : gmap string HealthCheck
}.

Definition emptyRegistry : Registry :=
  {| services := ∅; proxies := ∅; checks := ∅ |}.

(** Modelled from the spec: the mesh catalog, "per-agent addressing" and
    "current catalog state per namespace": a map from (agent, mesh
    namespace) to a registry; a scope that was never written is empty. *)
Abbreviation Catalog := (gmap (string * string) Registry).

Definition registry (cat : Catalog) (agent ns : string) : Registry :=
  default emptyRegistry (cat !! (agent, ns)).

(** Modelled from the spec: the effect of a successful registration,
    "register (instance + sidecar-proxy + TTL health check initialized
    passing)". *)
Definition registerIn (inst : ServiceInstance) (r : Registry) : Registry :=
  {| services := <[ServiceID inst := inst]> (services r);
     proxies := <[ServiceID inst := sidecarOf inst]> (proxies r);
     checks := <[ServiceID inst := checkOf inst]> (checks r) |}.

(** Modelled from the spec: the effect of a successful deregistration,
    "deregister (instance + its paired sidecar-proxy + health check)". *)
Definition deregisterIn (sid : string) (r : Registry) : Registry :=
  {| services := delete sid (services r);
     proxies := delete sid (proxies r);
     checks := delete sid (checks r) |}.

(** Modelled from the spec: the ObservedSet, "the instances currently
    present in the mesh catalog whose metadata marks them as owned by this
    endpoints object". *)
Definition observed (key : OwnerKey) (r : Registry) : gmap string ServiceInstance :=
  filter (λ kv, ownerMatches key kv.2 = true) (services r).

(** Modelled from the spec: the owner-matching sidecar-proxy instances of
    a registry ("both primary and sidecar-proxy" are enumerated). *)
Definition observedProxies (key : OwnerKey) (r : Registry) : gmap string ServiceInstance :=
  filter (λ kv, ownerMatches key kv.2 = true) (proxies r).

(** Modelled from the spec: the identities under which an owner-matching
    instance of either kind is held. *)
Definition observedIDs (key : OwnerKey) (r : Registry) : gset string :=
  dom (observed key r) ∪ dom (observedProxies key r).

(** Modelled from the spec: [ListByOwner(agent, namespace, ownerKey)]. *)
Definition ListByOwner (cat : Catalog) (agent ns : string) (key : OwnerKey)
    : list ServiceInstance :=
  (map_to_list (observed key (registry cat agent ns))).*2 ++
  (map_to_list (observedProxies key (registry cat agent ns))).*2.

(** ** Operations and the diff (section 4.1, step 5) *)

(** Modelled from the spec: the calls of the Mesh Catalog Client that
    change the catalog, [Register(agent, instance)] and
    [Deregister(agent, serviceID)] (in the client's namespace). *)
Inductive Op :=
| Register (agent : string) (inst : ServiceInstance)
| Deregister (agent ns sid : string).

#[global] Instance Op_eq_dec : EqDecision Op.
Proof. solve_decision. Defined.

Definition opAgent (op : Op) : string :=
  match op with
  | Register agent _ => agent
  | Deregister agent _ _ => agent
  end.

Definition opNamespace (op : Op) : string :=
  match op with
  | Register _ inst => Namespace inst
  | Deregister _ ns _ => ns
  end.

(** Modelled from the spec: the identity (ServiceID) a call targets. *)
Definition opTarget (op : Op) : string :=
  match op with
  | Register _ inst => ServiceID inst
  | Deregister _ _ sid => sid
  end.

(** Modelled from the spec: the effect of a completed call on the registry
    it addresses. *)
Definition applyOpIn (op : Op) (r : Registry) : Registry :=
  match op with
  | Register _ inst => registerIn inst r
  | Deregister _ _ sid => deregisterIn sid r
  end.

(** Modelled from the spec: a completed call changes the registry of its
    agent and namespace only ("agents are independent failure domains"). *)
Definition applyOp (op : Op) (cat : Catalog) : Catalog :=
  <[(opAgent op, opNamespace op) :=
      applyOpIn op (registry cat (opAgent op) (opNamespace op))]> cat.

(** Modelled from the spec: "present but with differing address/port/tags/
    metadata"; tags are compared as an ordered sequence (section 9). *)
Definition unchanged (d o : ServiceInstance) : bool :=
  bool_decide (ServiceAddress d = ServiceAddress o) &&
  bool_decide (ServicePort d = ServicePort o) &&
  bool_decide (ServiceTags d = ServiceTags o) &&
  bool_decide (ServiceMeta d = ServiceMeta o).

(** Modelled from the spec: a desired instance needs a register call when
    it is "absent from ObservedSet, or present but with differing
    address/port/tags/metadata". *)
Definition needsRegister (key : OwnerKey) (r : Registry) (d : ServiceInstance) : bool :=
  match observed key r !! ServiceID d with
  | Some o => negb (unchanged d o)
  | None => true
  end.

(** Modelled from the spec: "Diff per agent: any ObservedSet instance whose
    identity (ServiceID) is absent from DesiredSet -> deregister. Any
    DesiredSet instance absent from ObservedSet, or present but with
    differing address/port/tags/metadata -> register. Matching, unchanged
    instances are left untouched". [desired] is the DesiredSet of the agent,
    keyed by ServiceID; [r] is the agent's registry in namespace [ns]. *)
Definition diff (key : OwnerKey) (agent ns : string)
    (desired : gmap string ServiceInstance) (r : Registry) : list Op :=
  (Deregister agent ns <$> elements (observedIDs key r ∖ dom desired)) ++
  (Register agent <$>
     filter (λ d, needsRegister key r d = true) (map_to_list desired).*2).

(** Modelled from the spec: "after applying the computed diff": the calls
    of a diff completed in order on a registry. *)
Definition applyDiff (ops : list Op) (r : Registry) : Registry :=
  fold_left (fun r op => applyOpIn op r) ops r.

(** Modelled from the spec: a DesiredSet of a key in a mesh namespace,
    "finite sets of instances keyed by ServiceID", every instance in that
    namespace and carrying the owner metadata of the key. *)
Definition isDesiredSet (key : OwnerKey) (ns : string)
    (desired : gmap string ServiceInstance) : Prop :=
  forall id d, desired !! id = Some d ->
    ServiceID d = id /\ Namespace d = ns /\ ownerMatches key d = true.

(** The three table entries a registry holds under an identity. *)
Definition entryAt (r : Registry) (id : string)
    : option ServiceInstance * option ServiceInstance * option HealthCheck :=
  (services r !! id, proxies r !! id, checks r !! id).

(** What a completed operation leaves under its target. *)
Definition effect (op : Op)
    : option ServiceInstance * option ServiceInstance * option HealthCheck :=
  match op with
  | Register _ inst => (Some inst, Some (sidecarOf inst), Some (checkOf inst))
  | Deregister _ _ _ => (None, None, None)
  end.

(** ** Collaborators (sections 4.2, 4.3 and 6) *)

(** Modelled from the spec: the configuration of the Namespace Policy
    Resolver, with the field names the tests give the controller. *)
Record NamespacePolicy := {
  EnableConsulNamespaces : bool;
  ConsulDestinationNamespace : string;
  EnableNSMirroring : bool;
  NSMirroringPrefix : string;
  AllowK8sNamespacesSet : list string;
  DenyK8sNamespacesSet : list string
}.

(** Modelled from the spec: [Resolve(sourceNamespace)], the resolution rule
    of section 4.3 as [ConnectInject.consulNamespace] states it. *)
Definition Resolve (p : NamespacePolicy) (sourceNamespace : string) : string :=
  ConnectInject.consulNamespace
    {| ConnectInject.EnableNamespaces := EnableConsulNamespaces p;
       ConnectInject.ConsulDestinationNamespace := ConsulDestinationNamespace p;
       ConnectInject.EnableK8SNSMirroring := EnableNSMirroring p;
       ConnectInject.K8SNSMirroringPrefix := NSMirroringPrefix p |}
    sourceNamespace.

(** Modelled from the spec: [IsAllowed(namespace)], "over allow-set/deny-set
    with deny taking precedence and * acting as wildcard-allow". *)
Definition IsAllowed (p : NamespacePolicy) (ns : string) : bool :=
  (Cmp.inb Common.WildcardNamespace (AllowK8sNamespacesSet p) ||
   Cmp.inb ns (AllowK8sNamespacesSet p)) &&
  negb (Cmp.inb ns (DenyK8sNamespacesSet p)).

(** Modelled from the spec: the pod metadata surface consumed, "injection-
    status marker, mesh-service-name override annotation, tag overrides",
    with the addresses of the pod and of its node. *)
Record Pod := {
  PodName : string;
  PodNamespace : string;
  PodIP : string;
  HostIP : string;
  Injected : bool;
  ServiceOverride : option string;
  PodTags : list string;
  PodPort : Z
}.

(** Modelled from the spec: an entry of the endpoints snapshot, "(address,
    readiness, backing-pod-reference)"; the reference is (namespace, name). *)
Record EndpointAddress := {
  IP : string;
  Ready : bool;
  TargetRef : option (string * string)
}.

(** Modelled from the spec: the result of [Get(namespace, name)] of the
    Endpoint Snapshot Reader. *)
Inductive GetResult :=
| Found (snapshot : list EndpointAddress)
| NotFound
| GetFailed (err : string).

(** Modelled from the spec: everything a pass reads: the namespace policy,
    the orchestration layer, the nodes that run a mesh agent, and which
    calls of the Mesh Catalog Client fail. *)
Record World := {
  policy : NamespacePolicy;
  getEndpoints : OwnerKey -> GetResult;
  getPod : string -> string -> option Pod;
  agentNodes : gset string;
  callFails : Op -> bool
}.

(** Modelled from the spec: [LocateAgent(instanceAddress)], the agent
    colocated with a node, or AgentNotFound. An agent is named by its node. *)
Definition LocateAgent (w : World) (node : string) : option string :=
  if decide (node ∈ agentNodes w) then Some node else None.

(** Modelled from the spec: the instance a pod contributes to the
    DesiredSet, under "per-pod annotation overrides for instance naming,
    mesh service name, and tags" and the owner metadata of the key. *)
Definition instanceOf (key : OwnerKey) (ns : string) (pod : Pod) : ServiceInstance :=
  let svcName := default (KeyName key) (ServiceOverride pod) in
  {| ServiceID := PodName pod +:+ "-" +:+ svcName;
     ServiceName := svcName;
     Namespace := ns;
     ServiceAddress := PodIP pod;
     ServicePort := PodPort pod;
     ServiceTags := PodTags pod;
     ServiceMeta :=
       <[MetaKeyPodName := PodName pod]>
         (<[MetaKeyKubeServiceName := KeyName key]>
            (<[MetaKeyKubeNS := KeyNamespace key]> ∅));
     ServiceKind := Primary |}.

(** Modelled from the spec: step 3, "for every address in the endpoints
    object's subsets, resolve the backing pod; skip addresses that are not
    mesh-managed (missing injection marker) or do not resolve to a pod".
    Each entry is the node of the pod with the instance. *)
Definition desiredEntry (w : World) (key : OwnerKey) (ns : string)
    (addr : EndpointAddress) : option (string * ServiceInstance) :=
  if Ready addr then
    match TargetRef addr with
    | Some (podNS, podName) =>
        match getPod w podNS podName with
        | Some pod =>
            if Injected pod then Some (HostIP pod, instanceOf key ns pod) else None
        | None => None
        end
    | None => None
    end
  else None.

(** Modelled from the spec: "Build DesiredSet": the entries of all the
    addresses of the snapshot, in order. *)
Definition desiredEntries (w : World) (key : OwnerKey) (ns : string)
    (snapshot : list EndpointAddress) : list (string * ServiceInstance) :=
  omap (desiredEntry w key ns) snapshot.

(** Modelled from the spec: the DesiredSet of one agent ("by instance
    locality"), keyed by ServiceID. *)
Definition desiredAt (entries : list (string * ServiceInstance)) (agent : string)
    : gmap string ServiceInstance :=
  list_to_map ((λ e, (ServiceID e.2, e.2)) <$> filter (λ e, e.1 = agent) entries).

(** Modelled from the spec: "instances with no locatable agent (host
    unresolvable) are treated as registration failures, not silently
    dropped". *)
Definition unlocatable (w : World) (entries : list (string * ServiceInstance))
    : list ServiceInstance :=
  (filter (λ e, LocateAgent w e.1 = None) entries).*2.

(** ** One reconciliation pass (section 4.1) *)

(** Modelled from the spec: steps 4 and 5 for "every unique agent". *)
Definition plan (w : World) (key : OwnerKey) (ns : string)
    (entries : list (string * ServiceInstance)) (cat : Catalog) : list Op :=
  elements (agentNodes w) ≫=
    (λ agent, diff key agent ns (desiredAt entries agent) (registry cat agent ns)).

(** Modelled from the spec: "aggregate per-agent outcomes": a call of the
    pass with whether it succeeded. *)
Record Attempt := {
  attempted : Op;
  succeeded : bool
}.

#[global] Instance Attempt_eq_dec : EqDecision Attempt.
Proof. solve_decision. Defined.

(** Modelled from the spec: step 6, "if any register/deregister call fails,
    record the error, continue processing"; a failed call changes nothing
    and nothing already applied is undone. *)
Fixpoint execute (fails : Op -> bool) (ops : list Op) (cat : Catalog)
    : Catalog * list Attempt :=
  match ops with
  | [] => (cat, [])
  | op :: rest =>
      if fails op then
        let '(cat', tr) := execute fails rest cat in
        (cat', {| attempted := op; succeeded := false |} :: tr)
      else
        let '(cat', tr) := execute fails rest (applyOp op cat) in
        (cat', {| attempted := op; succeeded := true |} :: tr)
  end.

(** Modelled from the spec: "either success (possibly empty diff) or a
    requeue signal with fatal flag". *)
Inductive Outcome :=
| Success
| Requeue (fatal : bool).

(** Modelled from the spec: what a pass produces: its outcome, the calls
    it made, the instances with no locatable agent, and the catalog. *)
Record PassResult := {
  outcome : Outcome;
  trace : list Attempt;
  unlocated : list ServiceInstance;
  catalog : Catalog
}.

(** Modelled from the spec: steps 4 to 6 for a DesiredSet given by its
    entries: "return a retryable failure for the whole key if any
    sub-operation failed". *)
Definition run (w : World) (key : OwnerKey) (ns : string)
    (entries : list (string * ServiceInstance)) (cat : Catalog) : PassResult :=
  let '(cat', tr) := execute (callFails w) (plan w key ns entries cat) cat in
  {| outcome :=
       if forallb succeeded tr && bool_decide (unlocatable w entries = [])
       then Success else Requeue false;
     trace := tr;
     unlocated := unlocatable w entries;
     catalog := cat' |}.

(** Modelled from the spec: [Reconcile(key) -> outcome], steps 1 to 6. A
    denied namespace is a no-op success; a deleted endpoints object runs the
    deregistration-only path (empty DesiredSet); a failed read of the
    endpoints object is fatal. *)
Definition Reconcile (w : World) (key : OwnerKey) (cat : Catalog) : PassResult :=
  if negb (IsAllowed (policy w) (KeyNamespace key)) then
    {| outcome := Success; trace := []; unlocated := []; catalog := cat |}
  else
    let ns := Resolve (policy w) (KeyNamespace key) in
    match getEndpoints w key with
    | GetFailed _ =>
        {| outcome := Requeue true; trace := []; unlocated := []; catalog := cat |}
    | NotFound => run w key ns [] cat
    | Found snapshot => run w key ns (desiredEntries w key ns snapshot) cat
    end.

(** Modelled from the spec: the diff a pass computes for the key on a
    catalog, that is the calls it issues: none when the pass does not reach
    step 4. *)
Definition passDiff (w : World) (key : OwnerKey) (cat : Catalog) : list Op :=
  attempted <$> trace (Reconcile w key cat).

(** Modelled from the spec: the mesh namespace of a pass (step 1), and the
    entries of its DesiredSet (step 3; none when the endpoints object is
    absent). *)
Definition passNamespace (w : World) (key : OwnerKey) : string :=
  Resolve (policy w) (KeyNamespace key).

Definition passEntries (w : World) (key : OwnerKey) : list (string * ServiceInstance) :=
  match getEndpoints w key with
  | Found snapshot => desiredEntries w key (passNamespace w key) snapshot
  | NotFound | GetFailed _ => []
  end.

(** Modelled from the spec: the DesiredSet of a pass for one agent. *)
Definition DesiredSet (w : World) (key : OwnerKey) (agent : string)
    : gmap string ServiceInstance :=
  desiredAt (passEntries w key) agent.

(** The agent and namespace whose registry an operation addresses. *)
Definition opScope (op : Op) : string * string :=
  (opAgent op, opNamespace op).

(** The catalog after a list of completed operations. *)
Definition applyAll (ops : list Op) (cat : Catalog) : Catalog :=
  fold_left (fun cat op => applyOp op cat) ops cat.

(** The entries of a DesiredSet of a key in a mesh namespace. *)
Definition entriesFor (key : OwnerKey) (ns : string)
    (entries : list (string * ServiceInstance)) : Prop :=
  forall e, e ∈ entries -> Namespace e.2 = ns /\ ownerMatches key e.2 = true.

End Engine.

(* ===================================================================== *)
(** * The mesh catalog call by call (sections 3, 4.1 and 6) *)
(* ===================================================================== *)

(** An operation of the diff registers or deregisters "instance +
    sidecar-proxy"; the Mesh Catalog Client of section 6 takes one instance
    per call, and any call may fail. This module runs the plan of the
    engine call by call, on a catalog that holds the instances of both
    kinds under their identity. *)
Module Wire.

Import Engine.

(** Modelled from the spec: what one agent holds in one mesh namespace,
    "identity = (ServiceID, Namespace)": the instances of both kinds under
    their ServiceID, and the health checks under their CheckID. *)
Record Store := {
  instances : gmap string ServiceInstance;
  healthChecks : gmap string HealthCheck
}.

Definition emptyStore : Store :=
  {| instances := ∅; healthChecks := ∅ |}.

(** Modelled from the spec: the mesh catalog, a store per (agent, mesh
    namespace); a scope that was never written is empty. *)
Abbreviation Mesh := (gmap (string * string) Store).

Definition store (m : Mesh) (agent ns : string) : Store :=
  default emptyStore (m !! (agent, ns)).

(** Modelled from the spec: the calls of section 6 that change the catalog,
    [Register(agent, instance)], [Deregister(agent, serviceID)] and
    [SetHealth(agent, checkID, passing, reason)], the last with the check it
    sets. *)
Inductive Call :=
| RegisterCall (agent : string) (inst : ServiceInstance)
| DeregisterCall (agent ns sid : string)
| SetHealthCall (agent ns : string) (check : HealthCheck).

(** The agent and namespace a call addresses. *)
Definition callScope (c : Call) : string * string :=
  match c with
  | RegisterCall agent inst => (agent, Namespace inst)
  | DeregisterCall agent ns _ => (agent, ns)
  | SetHealthCall agent ns _ => (agent, ns)
  end.

(** The identity under which a call writes or deletes an instance. *)
Definition callKey (c : Call) : option string :=
  match c with
  | RegisterCall _ inst => Some (ServiceID inst)
  | DeregisterCall _ _ sid => Some sid
  | SetHealthCall _ _ _ => None
  end.

(** Modelled from the spec: the effect of a successful call on the store
    it addresses: "ServiceInstance created on register call, destroyed on
    deregister call"; a health check is "linked by ID to its instance" and
    goes with it. *)
Definition applyCallIn (c : Call) (s : Store) : Store :=
  match c with
  | RegisterCall _ inst =>
      {| instances := <[ServiceID inst := inst]> (instances s);
         healthChecks := healthChecks s |}
  | DeregisterCall _ _ sid =>
      {| instances := delete sid (instances s);
         healthChecks := filter (λ kv, CheckServiceID kv.2 ≠ sid) (healthChecks s) |}
  | SetHealthCall _ _ check =>
      {| instances := instances s;
         healthChecks := <[CheckID check := check]> (healthChecks s) |}
  end.

Definition applyCall (c : Call) (m : Mesh) : Mesh :=
  <[callScope c := applyCallIn c (store m (callScope c).1 (callScope c).2)]> m.

(** Modelled from the spec (step 5): the calls of an operation, "register
    (instance + sidecar-proxy + TTL health check initialized passing)" and
    "deregister (instance + its paired sidecar-proxy + health check)", all
    against the agent and namespace of the operation. *)
Definition calls (op : Op) : list Call :=
  match op with
  | Register agent inst =>
      [ RegisterCall agent inst;
        RegisterCall agent (sidecarOf inst);
        SetHealthCall agent (Namespace inst) (checkOf inst) ]
  | Deregister agent ns sid =>
      [ DeregisterCall agent ns sid;
        DeregisterCall agent ns (sid +:+ proxySuffix) ]
  end.

(** Modelled from the spec: the calls of one operation, issued in order.
    The operation completes when none fails; a failed call ends it, and
    "already-applied operations are not undone". *)
Fixpoint issue (fails : Call -> bool) (cs : list Call) (m : Mesh) : Mesh * bool :=
  match cs with
  | [] => (m, true)
  | c :: rest =>
      if fails c then (m, false) else issue fails rest (applyCall c m)
  end.

(** Modelled from the spec (step 6): the operations of a plan, one after
    the other; an operation that did not complete does not stop the next. *)
Fixpoint execute (fails : Call -> bool) (ops : list Op) (m : Mesh)
    : Mesh * list Attempt :=
  match ops with
  | [] => (m, [])
  | op :: rest =>
      let '(m1, ok) := issue fails (calls op) m in
      let '(m', tr) := execute fails rest m1 in
      (m', {| attempted := op; succeeded := ok |} :: tr)
  end.

(** The primary a sidecar-proxy refers to. *)
Definition backReference (inst : ServiceInstance) : option string :=
  match ServiceKind inst with
  | Primary => None
  | SidecarProxy _ sid => Some sid
  end.

(** Modelled from the spec: what the diff reads of a store: the primaries
    under their ServiceID, the sidecar-proxies under their back-reference
    and the health checks under the instance they are linked to. *)
Definition view (s : Store) : Registry :=
  {| services := filter (λ kv, ServiceKind kv.2 = Primary) (instances s);
     proxies :=
       list_to_map
         (omap (λ kv, (λ sid, (sid, kv.2)) <$> backReference kv.2)
               (map_to_list (instances s)));
     checks :=
       list_to_map ((λ kv, (CheckServiceID kv.2, kv.2)) <$> map_to_list (healthChecks s)) |}.

Definition observedCatalog (m : Mesh) : Catalog := view <$> m.

(** Modelled from the spec: one reconciliation pass (section 4.1, steps 1
    to 6) with the plan of [Engine.plan] executed call by call; [fails]
    tells which calls of the Mesh Catalog Client fail (the failures of the
    world, which are per operation, are not read). *)
Definition pass (w : World) (fails : Call -> bool) (key : OwnerKey) (m : Mesh)
    : Mesh * list Attempt :=
  if negb (IsAllowed (policy w) (KeyNamespace key)) then (m, [])
  else
    match getEndpoints w key with
    | GetFailed _ => (m, [])
    | NotFound | Found _ =>
        execute fails
          (plan w key (passNamespace w key) (passEntries w key) (observedCatalog m)) m
    end.

(** No instance of the DesiredSet of the pass has a ServiceID that ends
    with the suffix of the sidecar-proxies. *)
Definition wellNamed (w : World) (key : OwnerKey) : bool :=
  forallb (λ e, negb (Strings.HasSuffix (ServiceID e.2) proxySuffix)) (passEntries w key).

(** Modelled from the spec: the "reachable states": the catalogs that
    passes reach from the empty catalog, in any worlds, for any keys and
    with any failing calls, with the operations attempted so far. *)
Inductive reaches (named : World -> OwnerKey -> bool) : list Attempt -> Mesh -> Prop :=
| reaches_empty : reaches named [] ∅
| reaches_pass (w : World) (fails : Call -> bool) (key : OwnerKey)
    (log : list Attempt) (m : Mesh) :
    named w key = true ->
    reaches named log m ->
    reaches named (log ++ (pass w fails key m).2) (pass w fails key m).1.

(** An attempt concerns an identity of an agent in a namespace. *)
Definition concerns (agent ns id : string) (a : Attempt) : Prop :=
  opScope (attempted a) = (agent, ns) /\ opTarget (attempted a) = id.

#[global] Instance concerns_dec agent ns id a : Decision (concerns agent ns id a).
Proof. unfold concerns. apply _. Defined.

(** The last operation attempted on an identity. *)
Definition lastOn (log : list Attempt) (agent ns id : string) : option Attempt :=
  last (filter (concerns agent ns id) log).

(** What a store holds under an identity and under the identity of its
    sidecar-proxy. *)
Definition pairAt (m : Mesh) (agent ns id : string)
    : option ServiceInstance * option ServiceInstance :=
  (instances (store m agent ns) !! id,
   instances (store m agent ns) !! (id +:+ proxySuffix)).

(** An operation took effect: after a registration the primary and its
    sidecar-proxy are both held by the agent, after a deregistration
    neither is. *)
Definition settled (op : Op) (m : Mesh) : Prop :=
  pairAt m (opAgent op) (opNamespace op) (opTarget op)
  = match op with
    | Register _ inst => (Some inst, Some (sidecarOf inst))
    | Deregister _ _ _ => (None, None)
    end.

(** The shape of a held instance: a primary has a ServiceID that does not
    end with the suffix of the sidecar-proxies; a sidecar-proxy has the
    ServiceID of such a primary with the suffix, and the proxy port. *)
Definition shaped (x : ServiceInstance) : Prop :=
  match ServiceKind x with
  | Primary => Strings.HasSuffix (ServiceID x) proxySuffix = false
  | SidecarProxy _ sid =>
      ServiceID x = sid +:+ proxySuffix /\
      Strings.HasSuffix sid proxySuffix = false /\
      ServicePort x = proxyPort
  end.

(** Every instance of a store is held under its ServiceID and is shaped. *)
Definition Named (s : Store) : Prop :=
  forall i x, instances s !! i = Some x -> ServiceID x = i /\ shaped x.

(** An operation on a primary whose ServiceID does not end with the suffix
    of the sidecar-proxies. *)
Definition wellFormed (op : Op) : Prop :=
  Strings.HasSuffix (opTarget op) proxySuffix = false /\
  match op with
  | Register _ inst => ServiceKind inst = Primary
  | Deregister _ _ _ => True
  end.

End Wire.

(* ===================================================================== *)
(** * Values of the tests *)
(* ===================================================================== *)

(** The resources, requests and worlds the tests build, used below to run
    the definitions on concrete inputs. *)
Module Fixtures.

Import V1alpha1.

(** A Cluster resource with the given name and nothing else set. *)
Definition clusterNamed (name : string) : Cluster :=
  {| TypeMeta := {| Metav1.Kind := ""; Metav1.APIVersion := "" |};
     ObjectMeta :=
       {| Metav1.Name := name;
          Metav1.Namespace := "";
          Metav1.Labels := ∅;
          Metav1.Annotations := ∅;
          Metav1.Finalizers := nilSlice |};
     Spec := {| TransparentProxy := {| CatalogDestinationsOnly := false |} |};
     status := {| Conditions := []; LastSyncedTime := None |} |}.

(** The request of TestValidateCluster for a resource. *)
Definition requestFor (op : Admissionv1.Operation) (c : Cluster) : Admission.Request :=
  {| Admission.Name := KubernetesName c;
     Admission.Namespace := "other";
     Admission.Operation := op;
     Admission.Raw := "" |}.

(** A webhook whose decoder yields [c] and whose client sees [existing],
    with the List call failing when [failure] is set. *)
Definition webhookWith (c : Cluster) (existing : list Cluster)
    (failure : option string) : ClusterWebhook :=
  {| client := {| clusters := existing; listFailure := failure |};
     decoder := fun _ => Ok c;
     EnableConsulNamespaces := false;
     EnableNSMirroring := false |}.

(** A cluster with the given finalizers, as TestCluster_RemoveFinalizer
    builds one. *)
Definition clusterWithFinalizers (fs : slice string) : Cluster :=
  setFinalizers fs (clusterNamed Common.Cluster).

Import Engine.

(** The policy of the case "SourceKubeNS=kube, Mirror=true". *)
Definition mirrorPolicy : NamespacePolicy :=
  {| EnableConsulNamespaces := true;
     ConsulDestinationNamespace := "default";
     EnableNSMirroring := true;
     NSMirroringPrefix := "";
     AllowK8sNamespacesSet := ["*"];
     DenyK8sNamespacesSet := [] |}.

Definition createdKey : OwnerKey :=
  {| KeyNamespace := "kube"; KeyName := "service-created" |}.

(** [createPodWithNamespace(name, "kube", ip, true)], on a given node. *)
Definition injectedPod (name ip node : string) : Pod :=
  {| PodName := name; PodNamespace := "kube"; PodIP := ip; HostIP := node;
     Injected := true; ServiceOverride := None; PodTags := []; PodPort := 0 |}.

Definition pod1 : Pod := injectedPod "pod1" "1.2.3.4" "10.0.0.1".
Definition pod2 : Pod := injectedPod "pod2" "2.2.3.4" "10.0.0.2".

Definition twoAddresses : list EndpointAddress :=
  [ {| IP := "1.2.3.4"; Ready := true; TargetRef := Some ("kube", "pod1") |};
    {| IP := "2.2.3.4"; Ready := true; TargetRef := Some ("kube", "pod2") |} ].

(** A world with the two pods, an agent on the node of each, the endpoints
    object read as [endpoints], and the failing calls [fails]. *)
Definition twoAgents (endpoints : GetResult) (fails : Op -> bool) : World :=
  {| policy := mirrorPolicy;
     getEndpoints := fun key => if decide (key = createdKey) then endpoints else NotFound;
     getPod := fun ns name =>
       if String.eqb name "pod1" then Some pod1
       else if String.eqb name "pod2" then Some pod2
       else None;
     agentNodes := {["10.0.0.1"; "10.0.0.2"]};
     callFails := fails |}.

Definition noFailure (op : Op) : bool := false.

(** The service exists, with its two addresses. *)
Definition createdWorld : World := twoAgents (Found twoAddresses) noFailure.

(** The service was deleted. *)
Definition deletedWorld : World := twoAgents NotFound noFailure.

(** The agent of the second node refuses every call. *)
Definition secondAgentDown : World :=
  twoAgents (Found twoAddresses) (fun op => bool_decide (opAgent op = "10.0.0.2")).

(** The catalog after the service was created from the empty catalog. *)
Definition createdCatalog : Catalog := catalog (Reconcile createdWorld createdKey ∅).

Definition instance1 : ServiceInstance := instanceOf createdKey "kube" pod1.
Definition instance2 : ServiceInstance := instanceOf createdKey "kube" pod2.


(** The service is still there, with no address left (scaled to zero). *)
Definition scaledToZeroWorld : World := twoAgents (Found []) noFailure.

(** The namespace of the key is denied. *)
Definition deniedWorld : World :=
  {| policy :=
       {| EnableConsulNamespaces := true;
          ConsulDestinationNamespace := "default";
          EnableNSMirroring := true;
          NSMirroringPrefix := "";
          AllowK8sNamespacesSet := ["*"];
          DenyK8sNamespacesSet := ["kube"] |};
     getEndpoints := getEndpoints createdWorld;
     getPod := getPod createdWorld;
     agentNodes := agentNodes createdWorld;
     callFails := noFailure |}.

(** The situation of the case "Endpoints has an updated address (pod IP
    change)" of TestReconcileUpdateEndpointWithNamespaces, for the service of
    [createdKey] and one agent: the pod now has address 4.4.4.4, and the
    catalog holds its instance at 1.2.3.4, port 80, with no owner metadata,
    and the sidecar-proxy of that instance. *)
Definition movedWorld : World :=
  {| policy := mirrorPolicy;
     getEndpoints := fun key =>
       if decide (key = createdKey) then
         Found [ {| IP := "4.4.4.4"; Ready := true; TargetRef := Some ("kube", "pod1") |} ]
       else NotFound;
     getPod := fun ns name =>
       if String.eqb name "pod1" then Some (injectedPod "pod1" "4.4.4.4" "127.0.0.1")
       else None;
     agentNodes := {["127.0.0.1"]};
     callFails := noFailure |}.

Definition staleInstance : ServiceInstance :=
  {| ServiceID := "pod1-service-created";
     ServiceName := "service-created";
     Namespace := "kube";
     ServiceAddress := "1.2.3.4";
     ServicePort := 80;
     ServiceTags := [];
     ServiceMeta := ∅;
     ServiceKind := Primary |}.

Definition staleCatalog : Catalog :=
  {[ ("127.0.0.1", "kube") :=
       {| services := {[ "pod1-service-created" := staleInstance ]};
          proxies := {[ "pod1-service-created" := sidecarOf staleInstance ]};
          checks := ∅ |} ]}.

(** The service of [createdKey] was deleted; the policy, the agents and
    the failing calls are given. *)
Definition deletedIn (p : NamespacePolicy) (agents : gset string) (fails : Op -> bool)
    : World :=
  {| policy := p;
     getEndpoints := fun _ => NotFound;
     getPod := getPod createdWorld;
     agentNodes := agents;
     callFails := fails |}.

(** A service named like the suffix of the sidecar-proxies, with two pods
    on one node, the second named after the first and the service. *)
Definition collidingKey : OwnerKey :=
  {| KeyNamespace := "kube"; KeyName := "sidecar-proxy" |}.

Definition podA : Pod := injectedPod "pod1" "1.2.3.4" "10.0.0.1".
Definition podB : Pod := injectedPod "pod1-sidecar-proxy" "2.2.3.4" "10.0.0.1".

Definition collidingWorld : World :=
  {| policy := mirrorPolicy;
     getEndpoints := fun key =>
       if decide (key = collidingKey) then
         Found [ {| IP := "1.2.3.4"; Ready := true; TargetRef := Some ("kube", "pod1") |};
                 {| IP := "2.2.3.4"; Ready := true;
                    TargetRef := Some ("kube", "pod1-sidecar-proxy") |} ]
       else NotFound;
     getPod := fun ns name =>
       if String.eqb name "pod1" then Some podA
       else if String.eqb name "pod1-sidecar-proxy" then Some podB
       else None;
     agentNodes := {["10.0.0.1"]};
     callFails := noFailure |}.

Definition instanceA : ServiceInstance := instanceOf collidingKey "kube" podA.
Definition instanceB : ServiceInstance := instanceOf collidingKey "kube" podB.

(** No call of the Mesh Catalog Client fails. *)
Definition noCallFailure (c : Wire.Call) : bool := false.

(** The agent refuses the calls on one identity in namespace "kube". *)
Definition refusing (agent sid : string) (c : Wire.Call) : bool :=
  bool_decide (Wire.callScope c = (agent, "kube") /\ Wire.callKey c = Some sid).

(** Any naming of the instances is accepted. *)
Definition anyNames (w : World) (key : OwnerKey) : bool := true.

End Fixtures.

(* ===================================================================== *)
(** * Properties of the Cluster resource (cluster_types.go) *)
(* ===================================================================== *)

Section ClusterFacts.

Import V1alpha1.

(** The loop of [RemoveFinalizer] keeps, in order, the finalizers that
    differ from [name]. *)
Lemma RemoveFinalizer_loop (name : string) (l : list string) (acc : slice string) :
  elems (fold_left
           (fun (newFinalizers : slice string) (oldF : string) =>
              if negb (String.eqb oldF name) then append newFinalizers oldF
              else newFinalizers) l acc)
  = elems acc ++ List.filter (fun f => negb (String.eqb f name)) l.
Proof.
  revert acc. induction l as [|f l IH]; intros acc; simpl.
  - by rewrite app_nil_r.
  - destruct (String.eqb f name); simpl.
    + apply IH.
    + rewrite IH. simpl. by rewrite <- app_assoc.
Qed.

Lemma Finalizers_setFinalizers (fs : slice string) (c : Cluster) :
  Finalizers (setFinalizers fs c) = fs.
Proof. reflexivity. Qed.

Lemma RemoveFinalizer_as_set (n : string) (c : Cluster) :
  RemoveFinalizer n c = setFinalizers (Finalizers (RemoveFinalizer n c)) c.
Proof. reflexivity. Qed.

Lemma setFinalizers_twice (a b : slice string) (c : Cluster) :
  setFinalizers a (setFinalizers b c) = setFinalizers a c.
Proof. reflexivity. Qed.

Lemma filter_absent (name : string) (l : list string) :
  name ∉ l -> List.filter (fun f => negb (String.eqb f name)) l = l.
Proof.
  induction l as [|f l IH]; intros Hn; simpl; [done|].
  apply not_elem_of_cons in Hn as [Hne Hn].
  destruct (String.eqb_spec f name) as [->|_]; [done|].
  simpl. by rewrite IH.
Qed.

Lemma filter_removes (name : string) (l : list string) :
  name ∉ List.filter (fun f => negb (String.eqb f name)) l.
Proof.
  induction l as [|f l IH]; simpl; [apply not_elem_of_nil|].
  destruct (String.eqb_spec f name) as [->|Hne]; simpl; [done|].
  apply not_elem_of_cons. split; [congruence|done].
Qed.

(** C10. AddFinalizer appends the name at the end of the finalizer list;
    RemoveFinalizer keeps exactly the entries different from the name, in
    their order; on a list that does not hold the name, removing after
    adding gives the original entries back; both leave every other field of
    the Cluster as it was. *)
Theorem finalizers_add_remove (c : Cluster) (n : string) :
  elems (Finalizers (AddFinalizer n c)) = elems (Finalizers c) ++ [n] /\
  elems (Finalizers (RemoveFinalizer n c))
    = List.filter (fun f => negb (String.eqb f n)) (elems (Finalizers c)) /\
  (n ∉ elems (Finalizers (RemoveFinalizer n c))) /\
  (n ∉ elems (Finalizers c) ->
   elems (Finalizers (RemoveFinalizer n (AddFinalizer n c))) = elems (Finalizers c)) /\
  sameButFinalizers c (AddFinalizer n c) /\
  sameButFinalizers c (RemoveFinalizer n c).
Proof.
  assert (Hrem : forall c', elems (Finalizers (RemoveFinalizer n c'))
            = List.filter (fun f => negb (String.eqb f n)) (elems (Finalizers c'))).
  { intros c'. unfold RemoveFinalizer. rewrite Finalizers_setFinalizers.
    by rewrite RemoveFinalizer_loop. }
  split; [reflexivity|].
  split; [apply Hrem|].
  split; [rewrite Hrem; apply filter_removes|].
  split.
  - intros Hn. rewrite Hrem. unfold AddFinalizer.
    rewrite Finalizers_setFinalizers. simpl.
    rewrite List.filter_app. simpl. rewrite String.eqb_refl. simpl.
    rewrite app_nil_r. by apply filter_absent.
  - split; repeat split.
Qed.

(** On a non-nil accumulator the loop of [RemoveFinalizer] copies a list
    that does not hold the name. *)
Lemma RemoveFinalizer_loop_absent_gen (n : string) (l acc : list string) :
  fold_left
    (fun (newFinalizers : slice string) (oldF : string) =>
       if negb (String.eqb oldF n) then append newFinalizers oldF
       else newFinalizers) l (Slice acc)
  = Slice (acc ++ List.filter (fun f => negb (String.eqb f n)) l).
Proof.
  revert acc. induction l as [|g l IH]; intros acc; simpl.
  - by rewrite app_nil_r.
  - destruct (String.eqb_spec g n) as [->|_]; simpl; [apply IH|].
    unfold append. simpl. rewrite IH. by rewrite <- app_assoc.
Qed.

Lemma RemoveFinalizer_loop_absent (n : string) (l acc : list string) :
  n ∉ l ->
  fold_left
    (fun (newFinalizers : slice string) (oldF : string) =>
       if negb (String.eqb oldF n) then append newFinalizers oldF
       else newFinalizers) l (Slice acc) = Slice (acc ++ l).
Proof.
  intros Hn. by rewrite RemoveFinalizer_loop_absent_gen, filter_absent.
Qed.

(** The finalizer slice itself comes back, unless it was the empty non-nil
    slice, which comes back as the nil slice. *)
Lemma finalizers_roundtrip_slice (c : Cluster) (n : string) :
  n ∉ elems (Finalizers c) ->
  Finalizers c <> Slice [] ->
  Finalizers (RemoveFinalizer n (AddFinalizer n c)) = Finalizers c.
Proof.
  intros Hn Hne. unfold RemoveFinalizer, AddFinalizer.
  rewrite !Finalizers_setFinalizers. simpl.
  rewrite fold_left_app. simpl. rewrite String.eqb_refl. simpl.
  destruct (Finalizers c) as [|l]; simpl in *; [done|].
  destruct l as [|f l]; [done|]. simpl.
  apply not_elem_of_cons in Hn as [Hne' Hn].
  destruct (String.eqb_spec f n) as [->|_]; [done|]. simpl.
  change (append nilSlice f) with (Slice [f]).
  by rewrite RemoveFinalizer_loop_absent.
Qed.

(** The loop of [RemoveFinalizer] from the nil slice: nil when nothing is
    kept, else the kept finalizers. *)
Lemma RemoveFinalizer_loop_nil (n : string) (l : list string) :
  fold_left
    (fun (newFinalizers : slice string) (oldF : string) =>
       if negb (String.eqb oldF n) then append newFinalizers oldF
       else newFinalizers) l nilSlice
  = match List.filter (fun f => negb (String.eqb f n)) l with
    | [] => nilSlice
    | kept => Slice kept
    end.
Proof.
  induction l as [|f l IH]; simpl; [done|].
  destruct (String.eqb_spec f n) as [->|Hne]; simpl; [done|].
  change (append nilSlice f) with (Slice [f]).
  rewrite RemoveFinalizer_loop_absent_gen. done.
Qed.

(** Removing a finalizer twice is removing it once; the finalizers become
    the nil slice exactly when every entry was the removed name; adding a
    finalizer never leaves the nil slice and lengthens the list by one. *)
Theorem RemoveFinalizer_idempotent (c : Cluster) (n : string) :
  RemoveFinalizer n (RemoveFinalizer n c) = RemoveFinalizer n c /\
  (Finalizers (RemoveFinalizer n c) = nilSlice <->
   forall f, f ∈ elems (Finalizers c) -> f = n) /\
  Finalizers (AddFinalizer n c) <> nilSlice /\
  length (elems (Finalizers (AddFinalizer n c))) = S (length (elems (Finalizers c))).
Proof.
  assert (Hfin : forall c', Finalizers (RemoveFinalizer n c')
            = match List.filter (fun f => negb (String.eqb f n)) (elems (Finalizers c')) with
              | [] => nilSlice
              | kept => Slice kept
              end).
  { intros c'. unfold RemoveFinalizer. rewrite Finalizers_setFinalizers.
    apply RemoveFinalizer_loop_nil. }
  split; [|split; [|split]].
  - assert (Hsame : Finalizers (RemoveFinalizer n (RemoveFinalizer n c))
                    = Finalizers (RemoveFinalizer n c)).
    { rewrite (Hfin (RemoveFinalizer n c)), (Hfin c).
      destruct (List.filter _ (elems (Finalizers c))) as [|f kept] eqn:Hk; [done|].
      simpl elems. rewrite (filter_absent n (f :: kept)); [done|].
      rewrite <- Hk. apply filter_removes. }
    rewrite (RemoveFinalizer_as_set n (RemoveFinalizer n c)), Hsame.
    rewrite (RemoveFinalizer_as_set n c) at 2.
    apply setFinalizers_twice.
  - rewrite Hfin. split.
    + intros Hnil f Hf.
      destruct (String.eqb_spec f n) as [|Hne]; [done|].
      assert (Hin : f ∈ List.filter (fun f => negb (String.eqb f n)) (elems (Finalizers c))).
      { apply list_elem_of_In, filter_In. split; [by apply list_elem_of_In|].
        by apply negb_true_iff, String.eqb_neq. }
      destruct (List.filter _ _); [by apply elem_of_nil in Hin|done].
    + intros Hall.
      destruct (List.filter _ _) as [|f kept] eqn:Hk; [done|].
      assert (Hin : In f (List.filter (fun f => negb (String.eqb f n))
                            (elems (Finalizers c)))) by (rewrite Hk; by left).
      apply filter_In in Hin as [Hin Hne].
      apply list_elem_of_In, Hall in Hin. subst f.
      by rewrite String.eqb_refl in Hne.
  - done.
  - unfold AddFinalizer. rewrite Finalizers_setFinalizers. simpl.
    rewrite length_app. simpl. lia.
Qed.

Section Matching.

Variable meta : string -> option (gmap string string).

(** What the comparison of [MatchesConsul] amounts to on a non-nil
    candidate: kind, name and the transparent-proxy setting. *)
Lemma MatchesConsul_fields (c : Cluster) (e : Capi.ClusterConfigEntry) :
  MatchesConsul meta c (Capi.ClusterEntry (Some e))
  = String.eqb (ConsulKind c) (Capi.Kind e) &&
    String.eqb (ConsulName c) (Capi.Name e) &&
    Bool.eqb (CatalogDestinationsOnly (TransparentProxy (Spec c)))
             (Capi.CatalogDestinationsOnly (Capi.TransparentProxy e)).
Proof.
  unfold MatchesConsul, ToConsul, reflectPtr, reflectEntry. simpl.
  repeat rewrite ?andb_true_r, ?orb_true_r, ?andb_assoc. reflexivity.
Qed.

(** C8. A Cluster matches its own config entry, whatever the datacenter;
    the comparison does not read Namespace, Meta, CreateIndex or
    ModifyIndex; a candidate of another type never matches. *)
Theorem MatchesConsul_ToConsul (c : Cluster) (d : string) :
  MatchesConsul meta c (ToConsul meta c d) = true /\
  (forall (e : Capi.ClusterConfigEntry) ns m ci mi,
     MatchesConsul meta c (Capi.ClusterEntry (Some
       {| Capi.Kind := Capi.Kind e;
          Capi.Name := Capi.Name e;
          Capi.Namespace := ns;
          Capi.TransparentProxy := Capi.TransparentProxy e;
          Capi.Meta := m;
          Capi.CreateIndex := ci;
          Capi.ModifyIndex := mi |}))
     = MatchesConsul meta c (Capi.ClusterEntry (Some e))) /\
  (forall goType kind name,
     MatchesConsul meta c (Capi.OtherEntry goType kind name) = false).
Proof.
  split; [|split].
  - unfold ToConsul. rewrite MatchesConsul_fields. simpl.
    rewrite !String.eqb_refl. by destruct (CatalogDestinationsOnly _).
  - intros e ns m ci mi. by rewrite !MatchesConsul_fields.
  - reflexivity.
Qed.

(** A nil [*ClusterConfigEntry] does not match either. *)
Lemma MatchesConsul_nil (c : Cluster) :
  MatchesConsul meta c (Capi.ClusterEntry None) = false.
Proof. reflexivity. Qed.

(** MatchesConsul holds exactly for a non-nil cluster config entry of kind
    "cluster" that carries the resource's name and its transparent-proxy
    setting. *)
Theorem MatchesConsul_iff (c : Cluster) (candidate : Capi.ConfigEntry) :
  MatchesConsul meta c candidate = true <->
  exists e, candidate = Capi.ClusterEntry (Some e) /\
            Capi.Kind e = Capi.ClusterConfig /\
            Capi.Name e = Metav1.Name (ObjectMeta c) /\
            Capi.CatalogDestinationsOnly (Capi.TransparentProxy e)
              = CatalogDestinationsOnly (TransparentProxy (Spec c)).
Proof.
  destruct candidate as [[e|]|goType kind name].
  - rewrite MatchesConsul_fields, !andb_true_iff, !String.eqb_eq, Bool.eqb_true_iff.
    unfold ConsulKind, ConsulName. split.
    + intros [[Hk Hn] Hp]. exists e. by rewrite <- Hk, <- Hn, Hp.
    + intros (e' & [= <-] & Hk & Hn & Hp). by rewrite Hk, Hn, Hp.
  - rewrite MatchesConsul_nil. split; [done|]. by intros (e & ? & _).
  - split; [done|]. by intros (e & ? & _).
Qed.

(** The cases of TestCluster_MatchesConsul. *)
Lemma MatchesConsul_test_cases :
  let theirMeta : option (gmap string string) :=
    Some (<[Common.SourceKey := Common.SourceValue]>
            (<[Common.DatacenterKey := "datacenter"]> ∅)) in
  let ours (destinationsOnly : bool) :=
    {| TypeMeta := {| Metav1.Kind := ""; Metav1.APIVersion := "" |};
       ObjectMeta :=
         {| Metav1.Name := Common.Cluster; Metav1.Namespace := "";
            Metav1.Labels := ∅; Metav1.Annotations := ∅;
            Metav1.Finalizers := nilSlice |};
       Spec := {| TransparentProxy := {| CatalogDestinationsOnly := destinationsOnly |} |};
       status := {| Conditions := []; LastSyncedTime := None |} |} in
  let theirs (ns : string) (destinationsOnly : bool) :=
    Capi.ClusterEntry (Some
      {| Capi.Kind := Capi.ClusterConfig; Capi.Name := Common.Cluster;
         Capi.Namespace := ns;
         Capi.TransparentProxy := {| Capi.CatalogDestinationsOnly := destinationsOnly |};
         Capi.Meta := theirMeta; Capi.CreateIndex := 1%N; Capi.ModifyIndex := 2%N |}) in
  MatchesConsul meta (ours false) (theirs "default" false) = true /\
  MatchesConsul meta (ours true) (theirs "" true) = true /\
  MatchesConsul meta (ours false)
    (Capi.OtherEntry "ServiceConfigEntry" Capi.ClusterConfig Common.Cluster) = false.
Proof. repeat split. Qed.

End Matching.

End ClusterFacts.

(* ===================================================================== *)
(** * Properties of the admission webhook (cluster_webhook.go) *)
(* ===================================================================== *)

Section WebhookFacts.

Import V1alpha1 Fixtures.

(** The response of a Create request that decodes to [cluster], by cases. *)
Lemma Handle_create (v : ClusterWebhook) (req : Admission.Request) (cluster : Cluster) :
  decoder v req = Ok cluster ->
  Admission.Operation req = Admissionv1.Create ->
  Handle v req =
    if negb (String.eqb (KubernetesName cluster) Common.Cluster) then
      Admission.Errored Admission.StatusBadRequest (nameError cluster)
    else match listFailure (client v) with
         | Some err => Admission.Errored Admission.StatusInternalServerError err
         | None =>
             match clusters (client v) with
             | [] => Admission.allowed (validMessage cluster)
             | _ :: _ => Admission.Errored Admission.StatusBadRequest (existsError cluster)
             end
         end.
Proof.
  intros Hdec Hop. unfold Handle, List. rewrite Hdec, Hop. simpl.
  destruct (negb _); [done|].
  destruct (listFailure (client v)); [done|].
  simpl. by destruct (clusters (client v)).
Qed.

(** C9 (amended). A Create request that decodes is refused exactly when the
    name is not "cluster", or listing the existing Cluster resources fails,
    or a Cluster resource already exists; a request for any other operation
    that decodes is allowed. *)
Theorem Handle_create_errored_iff (v : ClusterWebhook) (req : Admission.Request)
    (cluster : Cluster) :
  decoder v req = Ok cluster ->
  (Admission.Operation req = Admissionv1.Create ->
   (Admission.Allowed (Handle v req) = false <->
    KubernetesName cluster <> Common.Cluster \/
    is_Some (listFailure (client v)) \/
    clusters (client v) <> [])) /\
  (Admission.Operation req <> Admissionv1.Create ->
   Handle v req = Admission.allowed (validMessage cluster)).
Proof.
  intros Hdec. split.
  - intros Hop. rewrite (Handle_create v req cluster Hdec Hop).
    destruct (String.eqb_spec (KubernetesName cluster) Common.Cluster) as [Heq|Hne]; simpl.
    + destruct (listFailure (client v)) as [err|] eqn:Hf; simpl.
      * split; [|done]. intros _. right. left. by eexists.
      * destruct (clusters (client v)) as [|c0 cs] eqn:Hcs; simpl.
        -- split; [done|]. intros [Hn|[[e He]|Hn]]; congruence.
        -- split; [|done]. intros _. right. right. done.
    + split; [|done]. intros _. by left.
  - intros Hop. unfold Handle. rewrite Hdec.
    destruct (Admission.Operation req); simpl; congruence.
Qed.

(** The case "cluster exists" of TestValidateCluster, as an instance. *)
Lemma Handle_create_errored_iff_witness :
  let c := clusterNamed Common.Cluster in
  let v := webhookWith c [clusterNamed Common.Cluster] None in
  let req := requestFor Admissionv1.Create c in
  decoder v req = Ok c /\
  Admission.Operation req = Admissionv1.Create /\
  Admission.Allowed (Handle v req) = false /\
  Admission.Message (Handle v req)
    = "cluster resource already defined - only one cluster entry is supported".
Proof.
  simpl. split; [reflexivity|]. split; [reflexivity|]. split; [|reflexivity].
  apply (proj1 (Handle_create_errored_iff
                  (webhookWith (clusterNamed Common.Cluster)
                     [clusterNamed Common.Cluster] None)
                  (requestFor Admissionv1.Create (clusterNamed Common.Cluster))
                  (clusterNamed Common.Cluster) eq_refl) eq_refl).
  right. right. discriminate.
Defined.

(** A request that does not decode is refused with the decoder's error and
    status 400, whatever the operation and the client; a request that
    decodes is answered with status 200, 400 or 500, is allowed exactly when
    the status is 200, and then carries the message "valid cluster request". *)
Theorem Handle_response (v : ClusterWebhook) (req : Admission.Request) :
  match decoder v req with
  | Err err => Handle v req = Admission.Errored Admission.StatusBadRequest err
  | Ok cluster =>
      (Admission.Allowed (Handle v req) = true <->
       Admission.Code (Handle v req) = Admission.StatusOK) /\
      (Admission.Code (Handle v req) = Admission.StatusOK \/
       Admission.Code (Handle v req) = Admission.StatusBadRequest \/
       Admission.Code (Handle v req) = Admission.StatusInternalServerError) /\
      (Admission.Allowed (Handle v req) = true ->
       Handle v req = Admission.allowed "valid cluster request")
  end.
Proof.
  unfold Handle, List. destruct (decoder v req) as [cluster|err]; [|done].
  assert (Hok : forall msg,
            let r := Admission.allowed msg in
            (Admission.Allowed r = true <-> Admission.Code r = Admission.StatusOK) /\
            (Admission.Code r = Admission.StatusOK \/
             Admission.Code r = Admission.StatusBadRequest \/
             Admission.Code r = Admission.StatusInternalServerError)).
  { intros msg. simpl. split; [done|by left]. }
  assert (H400 : forall msg,
            let r := Admission.Errored Admission.StatusBadRequest msg in
            (Admission.Allowed r = true <-> Admission.Code r = Admission.StatusOK) /\
            (Admission.Code r = Admission.StatusOK \/
             Admission.Code r = Admission.StatusBadRequest \/
             Admission.Code r = Admission.StatusInternalServerError) /\
            (Admission.Allowed r = true ->
             r = Admission.allowed "valid cluster request")).
  { intros msg. simpl. split; [done|]. split; [by right; left|done]. }
  assert (H500 : forall msg,
            let r := Admission.Errored Admission.StatusInternalServerError msg in
            (Admission.Allowed r = true <-> Admission.Code r = Admission.StatusOK) /\
            (Admission.Code r = Admission.StatusOK \/
             Admission.Code r = Admission.StatusBadRequest \/
             Admission.Code r = Admission.StatusInternalServerError) /\
            (Admission.Allowed r = true ->
             r = Admission.allowed "valid cluster request")).
  { intros msg. simpl. split; [done|]. split; [by right; right|done]. }
  assert (Hvalid : forall c : Cluster, validMessage c = "valid cluster request")
    by reflexivity.
  destruct (Admissionv1.isCreate (Admission.Operation req)).
  - destruct (negb _); [apply H400|].
    destruct (listFailure (client v)); [apply H500|]. simpl.
    destruct (clusters (client v)); simpl; [|apply H400].
    destruct (Hok (validMessage cluster)) as [? ?]. by rewrite Hvalid in *.
  - destruct (Hok (validMessage cluster)) as [? ?]. by rewrite Hvalid in *.
Qed.

(** The three cases of TestValidateCluster: allowed, "cluster exists" and
    "name not global", with the expected messages. *)
Lemma Handle_test_cases :
  let create c existing :=
    Handle (webhookWith c existing None) (requestFor Admissionv1.Create c) in
  Admission.Allowed (create (clusterNamed Common.Cluster) []) = true /\
  Admission.Allowed (create (clusterNamed Common.Cluster) [clusterNamed Common.Cluster])
    = false /\
  Admission.Message (create (clusterNamed Common.Cluster) [clusterNamed Common.Cluster])
    = "cluster resource already defined - only one cluster entry is supported" /\
  Admission.Allowed (create (clusterNamed "local") []) = false /\
  Admission.Message (create (clusterNamed "local") [])
    = "cluster resource name must be " +:+ dquote +:+ "cluster" +:+ dquote.
Proof. repeat split. Qed.

(** C9 as worded fails: with no Cluster resource and the right name, a
    Create request is still refused when the List call fails. *)
Lemma Handle_list_failure_counterexample :
  let c := clusterNamed Common.Cluster in
  let v := webhookWith c [] (Some "context deadline exceeded") in
  let req := requestFor Admissionv1.Create c in
  decoder v req = Ok c /\
  Admission.Operation req = Admissionv1.Create /\
  ~ (Admission.Allowed (Handle v req) = false <->
     KubernetesName c <> Common.Cluster \/ clusters (client v) <> []).
Proof.
  simpl. split; [done|]. split; [done|].
  intros [H _]. destruct (H eq_refl) as [Hn|Hn]; by apply Hn.
Qed.

End WebhookFacts.

(* ===================================================================== *)
(** * Properties of the namespace resolution *)
(* ===================================================================== *)

Section NamespaceFacts.

Import ConnectInject.

(** Every case of TestConsulNamespace passes. *)
Lemma consulNamespaceCases_pass :
  forallb casePasses consulNamespaceCases = true.
Proof. reflexivity. Qed.

(** C4 (amended). With mesh namespaces enabled the destination is the rule
    of section 4.3 (prefix and source when mirroring, else the static
    namespace; so "prefix-" and "default" give "prefix-default", and a static
    "other" gives "other" for every source); with mesh namespaces disabled
    it is the empty string. *)
Theorem consulNamespace_rule (h : Handler) (ns : string) :
  consulNamespace h ns =
    (if EnableNamespaces h
     then resolveAsWorded (EnableK8SNSMirroring h) (K8SNSMirroringPrefix h)
            (ConsulDestinationNamespace h) ns
     else "") /\
  (forall dest,
     consulNamespace
       {| EnableNamespaces := true; ConsulDestinationNamespace := dest;
          EnableK8SNSMirroring := true; K8SNSMirroringPrefix := "prefix-" |}
       "default" = "prefix-default") /\
  (forall prefix,
     consulNamespace
       {| EnableNamespaces := true; ConsulDestinationNamespace := "other";
          EnableK8SNSMirroring := false; K8SNSMirroringPrefix := prefix |}
       ns = "other").
Proof.
  split; [|split; reflexivity].
  unfold consulNamespace, resolveAsWorded. by destruct (EnableNamespaces h).
Qed.

(** C4 as worded fails: the third case of TestConsulNamespace has mirroring
    enabled with prefix "test-" and expects the empty string, and its first
    and fourth cases agree on (mirroring, prefix, static destination, source)
    and expect different destinations. *)
Lemma consulNamespace_gate_counterexample :
  let h3 := {| EnableNamespaces := false; ConsulDestinationNamespace := "default";
               EnableK8SNSMirroring := true; K8SNSMirroringPrefix := "test-" |} in
  let h1 := {| EnableNamespaces := false; ConsulDestinationNamespace := "default";
               EnableK8SNSMirroring := false; K8SNSMirroringPrefix := "" |} in
  let h4 := {| EnableNamespaces := true; ConsulDestinationNamespace := "default";
               EnableK8SNSMirroring := false; K8SNSMirroringPrefix := "" |} in
  consulNamespace h3 "namespace" = "" /\
  consulNamespace h3 "namespace" <> resolveAsWorded true "test-" "default" "namespace" /\
  consulNamespace h1 "namespace" <> consulNamespace h4 "namespace".
Proof. simpl. repeat split; discriminate. Qed.

(** No function that passes TestConsulNamespace is the rule of section 4.3
    on (mirroring, prefix, static destination, source) alone: the third case
    already separates them. *)
Lemma consulNamespaceCases_refute_wording (f : Handler -> string -> string) :
  (forall tt, tt ∈ consulNamespaceCases ->
     f (caseHandler tt) (CaseK8sNamespace tt) = CaseExpected tt) ->
  ~ (forall h ns,
       f h ns = resolveAsWorded (EnableK8SNSMirroring h) (K8SNSMirroringPrefix h)
                  (ConsulDestinationNamespace h) ns).
Proof.
  intros Hpass Hrule.
  assert (Hin : mkCase "namespaces disabled, mirroring enabled, prefix defined"
                  false "default" true "test-" "namespace" "" ∈ consulNamespaceCases)
    by (by apply (list_elem_of_lookup_2 _ 2)).
  specialize (Hpass _ Hin). rewrite Hrule in Hpass. discriminate.
Qed.

End NamespaceFacts.

Section FinalizerInstances.

Import V1alpha1 Fixtures.

(** Adding "f1" to the list ["f2"] and removing it gives ["f2"] back. *)
Lemma finalizers_add_remove_witness :
  ("f1" ∉ elems (Finalizers (clusterWithFinalizers (Slice ["f2"])))) /\
  elems (Finalizers (RemoveFinalizer "f1"
           (AddFinalizer "f1" (clusterWithFinalizers (Slice ["f2"]))))) = ["f2"].
Proof.
  assert (Hn : "f1" ∉ elems (Finalizers (clusterWithFinalizers (Slice ["f2"])))).
  { simpl. apply not_elem_of_cons. split; [discriminate|apply not_elem_of_nil]. }
  split; [exact Hn|].
  exact (proj1 (proj2 (proj2 (proj2
           (finalizers_add_remove (clusterWithFinalizers (Slice ["f2"])) "f1")))) Hn).
Defined.

(** The slice of TestCluster_RemoveFinalizer comes back as it was, while
    the empty non-nil slice comes back as the nil slice. *)
Lemma finalizers_roundtrip_slice_witness :
  ("f1" ∉ elems (Finalizers (clusterWithFinalizers (Slice ["f2"])))) /\
  Finalizers (clusterWithFinalizers (Slice ["f2"])) <> Slice [] /\
  Finalizers (RemoveFinalizer "f1"
                (AddFinalizer "f1" (clusterWithFinalizers (Slice ["f2"]))))
    = Slice ["f2"] /\
  Finalizers (RemoveFinalizer "f1" (AddFinalizer "f1" (clusterWithFinalizers (Slice []))))
    = nilSlice.
Proof.
  assert (Hn : "f1" ∉ elems (Finalizers (clusterWithFinalizers (Slice ["f2"])))).
  { simpl. apply not_elem_of_cons. split; [discriminate|apply not_elem_of_nil]. }
  assert (Hne : Finalizers (clusterWithFinalizers (Slice ["f2"])) <> Slice [])
    by discriminate.
  split; [exact Hn|]. split; [exact Hne|]. split; [|reflexivity].
  exact (finalizers_roundtrip_slice (clusterWithFinalizers (Slice ["f2"])) "f1" Hn Hne).
Defined.

(** TestCluster_AddFinalizer and TestCluster_RemoveFinalizer. *)
Lemma finalizers_test_cases :
  Finalizers (AddFinalizer "finalizer" (clusterWithFinalizers nilSlice))
    = Slice ["finalizer"] /\
  Finalizers (RemoveFinalizer "f1" (clusterWithFinalizers (Slice ["f1"; "f2"])))
    = Slice ["f2"].
Proof. split; reflexivity. Qed.

End FinalizerInstances.

(* ===================================================================== *)
(** * Properties of the reconciliation engine *)
(* ===================================================================== *)

Section ListFacts.

Context {A : Type} (P : A -> Prop) `{!forall x, Decision (P x)}.

Lemma filter_none (l : list A) :
  (forall x, x ∈ l -> ~ P x) -> filter P l = [].
Proof.
  induction l as [|x l IH]; intros Hl; [done|].
  rewrite filter_cons_False by (apply Hl; left).
  apply IH. intros y Hy. apply Hl. by right.
Qed.

Lemma filter_all (l : list A) :
  (forall x, x ∈ l -> P x) -> filter P l = l.
Proof.
  induction l as [|x l IH]; intros Hl; [done|].
  rewrite filter_cons_True by (apply Hl; left).
  f_equal. apply IH. intros y Hy. apply Hl. by right.
Qed.

End ListFacts.

Section EngineFacts.
Import Engine.

Lemma entryAt_applyOpIn_eq (op : Op) (r : Registry) :
  entryAt (applyOpIn op r) (opTarget op) = effect op.
Proof.
  destruct op as [a d|a ns sid]; unfold entryAt; simpl.
  - by rewrite !lookup_insert_eq.
  - by rewrite !lookup_delete_eq.
Qed.

Lemma entryAt_applyOpIn_ne (op : Op) (r : Registry) (id : string) :
  opTarget op <> id -> entryAt (applyOpIn op r) id = entryAt r id.
Proof.
  intros Hne. destruct op as [a d|a ns sid]; unfold entryAt; simpl in *.
  - by rewrite !lookup_insert_ne.
  - by rewrite !lookup_delete_ne.
Qed.

Lemma applyDiff_cons (op : Op) (ops : list Op) (r : Registry) :
  applyDiff (op :: ops) r = applyDiff ops (applyOpIn op r).
Proof. reflexivity. Qed.

Lemma applyDiff_untouched (ops : list Op) (r : Registry) (id : string) :
  id ∉ opTarget <$> ops -> entryAt (applyDiff ops r) id = entryAt r id.
Proof.
  revert r. induction ops as [|op ops IH]; intros r Hid; [done|].
  rewrite fmap_cons in Hid. apply not_elem_of_cons in Hid as [Hne Hid].
  rewrite applyDiff_cons, IH by done. by apply entryAt_applyOpIn_ne.
Qed.

Lemma applyDiff_touched (ops : list Op) (r : Registry) (op : Op) :
  NoDup (opTarget <$> ops) -> op ∈ ops ->
  entryAt (applyDiff ops r) (opTarget op) = effect op.
Proof.
  revert r. induction ops as [|op' ops IH]; intros r Hnd Hin.
  - by apply elem_of_nil in Hin.
  - rewrite fmap_cons in Hnd. apply NoDup_cons in Hnd as [Hfresh Hnd].
    rewrite applyDiff_cons. apply elem_of_cons in Hin as [->|Hin].
    + rewrite applyDiff_untouched by done. apply entryAt_applyOpIn_eq.
    + by apply IH.
Qed.

(** ** The shape of a diff *)

Lemma elem_of_diff_Deregister key agent ns D r a' ns' id :
  Deregister a' ns' id ∈ diff key agent ns D r <->
  a' = agent /\ ns' = ns /\ id ∈ observedIDs key r /\ id ∉ dom D.
Proof.
  unfold diff. rewrite elem_of_app, !list_elem_of_fmap. split.
  - intros [(x & Heq & Hx)|(x & Heq & _)]; [|done].
    injection Heq as -> -> ->. apply elem_of_elements in Hx.
    apply elem_of_difference in Hx as [? ?]. done.
  - intros (-> & -> & Hobs & HD). left. exists id. split; [done|].
    apply elem_of_elements, elem_of_difference. done.
Qed.

Lemma elem_of_diff_Register key agent ns D r a' d :
  Register a' d ∈ diff key agent ns D r <->
  a' = agent /\ (exists id, D !! id = Some d) /\ needsRegister key r d = true.
Proof.
  unfold diff. rewrite elem_of_app, !list_elem_of_fmap. split.
  - intros [(x & Heq & _)|(x & Heq & Hx)]; [done|].
    injection Heq as -> ->. apply list_elem_of_filter in Hx as [Hneed Hx].
    apply list_elem_of_fmap in Hx as ([id d'] & -> & Hx).
    apply elem_of_map_to_list in Hx. eauto.
  - intros (-> & (id & HD) & Hneed). right. exists d. split; [done|].
    apply list_elem_of_filter. split; [done|].
    apply list_elem_of_fmap. exists (id, d). split; [done|].
    by apply elem_of_map_to_list.
Qed.

Lemma diff_scope key agent ns D r op :
  isDesiredSet key ns D -> op ∈ diff key agent ns D r ->
  opAgent op = agent /\ opNamespace op = ns.
Proof.
  intros HD Hop. destruct op as [a' d|a' ns' id].
  - apply elem_of_diff_Register in Hop as (-> & (id & Hd) & _).
    split; [done|]. simpl. by apply HD in Hd as (_ & ? & _).
  - by apply elem_of_diff_Deregister in Hop as (-> & -> & _).
Qed.

Lemma snd_map_to_list_keys key ns (D : gmap string ServiceInstance) :
  isDesiredSet key ns D -> ServiceID <$> (map_to_list D).*2 = (map_to_list D).*1.
Proof.
  intros HD. rewrite <- list_fmap_compose.
  apply list_fmap_ext. intros i [id d] Hx. simpl.
  apply list_elem_of_lookup_2, elem_of_map_to_list in Hx.
  by apply HD in Hx as (? & _).
Qed.

Lemma diff_targets_NoDup key agent ns D r :
  isDesiredSet key ns D -> NoDup (opTarget <$> diff key agent ns D r).
Proof.
  intros HD. unfold diff. rewrite fmap_app, <- !list_fmap_compose.
  change (opTarget ∘ Deregister agent ns) with (@id string).
  change (opTarget ∘ Register agent) with ServiceID.
  rewrite list_fmap_id. apply NoDup_app. split; [apply NoDup_elements|]. split.
  - intros id Hid Hin. apply elem_of_elements, elem_of_difference in Hid as [_ Hid].
    apply list_elem_of_fmap in Hin as (d & -> & Hd).
    apply list_elem_of_filter in Hd as [_ Hd].
    apply list_elem_of_fmap in Hd as ([id' d'] & -> & Hd). simpl in *.
    apply elem_of_map_to_list in Hd. apply Hid, elem_of_dom.
    destruct (HD _ _ Hd) as (-> & _). by eexists.
  - eapply sublist_NoDup; [|apply fmap_sublist, sublist_filter].
    rewrite (snd_map_to_list_keys key ns) by done. apply NoDup_fst_map_to_list.
Qed.

Lemma diff_targets key agent ns D r id :
  isDesiredSet key ns D ->
  id ∈ opTarget <$> diff key agent ns D r <->
  (id ∈ observedIDs key r /\ id ∉ dom D) \/
  (exists d, D !! id = Some d /\ needsRegister key r d = true).
Proof.
  intros HD. rewrite list_elem_of_fmap. split.
  - intros ([a' d|a' ns' id'] & -> & Hop); simpl.
    + apply elem_of_diff_Register in Hop as (_ & (id' & Hd) & Hneed).
      right. exists d. split; [|done]. by destruct (HD _ _ Hd) as (-> & _).
    + apply elem_of_diff_Deregister in Hop as (_ & _ & ? & ?). by left.
  - intros [[Hobs HnD]|(d & Hd & Hneed)].
    + exists (Deregister agent ns id). split; [done|].
      by apply elem_of_diff_Deregister.
    + exists (Register agent d). destruct (HD _ _ Hd) as (Hid & _).
      split; [by rewrite <- Hid|].
      apply elem_of_diff_Register. eauto.
Qed.

Lemma unchanged_refl (d : ServiceInstance) : unchanged d d = true.
Proof. unfold unchanged. by rewrite !bool_decide_eq_true_2. Qed.

Lemma unchanged_meta (d o : ServiceInstance) :
  unchanged d o = true -> ServiceMeta o = ServiceMeta d.
Proof.
  unfold unchanged. rewrite !andb_true_iff, !bool_decide_eq_true.
  by intros (_ & ->).
Qed.

Lemma unchanged_owner (key : OwnerKey) (d o : ServiceInstance) :
  unchanged d o = true -> ownerMatches key o = ownerMatches key d.
Proof. intros H. unfold ownerMatches. by rewrite (unchanged_meta d o H). Qed.

Lemma needsRegister_false (key : OwnerKey) (r : Registry) (d : ServiceInstance) :
  needsRegister key r d = false <->
  exists o, observed key r !! ServiceID d = Some o /\ unchanged d o = true.
Proof.
  unfold needsRegister. destruct (observed key r !! ServiceID d) as [o|].
  - rewrite negb_false_iff. split.
    + intros H. by exists o.
    + by intros (o' & [= <-] & H).
  - split; [done|]. by intros (o & ? & _).
Qed.

Lemma elem_of_observedIDs (key : OwnerKey) (r : Registry) (id : string) :
  id ∈ observedIDs key r <->
  (exists o, services r !! id = Some o /\ ownerMatches key o = true) \/
  (exists q, proxies r !! id = Some q /\ ownerMatches key q = true).
Proof.
  unfold observedIDs, observed, observedProxies.
  rewrite elem_of_union, !elem_of_dom. unfold is_Some.
  setoid_rewrite map_lookup_filter_Some. simpl.
  split; (intros [(x & ? & ?)|(x & ? & ?)]; [left|right]; by exists x).
Qed.

Lemma entryAt_inv (r : Registry) (id : string) s p c :
  entryAt r id = (s, p, c) ->
  services r !! id = s /\ proxies r !! id = p /\ checks r !! id = c.
Proof. by intros [= -> -> ->]. Qed.

Lemma entryAt_same (r r' : Registry) (id : string) :
  entryAt r' id = entryAt r id ->
  services r' !! id = services r !! id /\ proxies r' !! id = proxies r !! id /\
  checks r' !! id = checks r !! id.
Proof. apply entryAt_inv. Qed.

(** An identity of the DesiredSet after the diff is applied. *)
Lemma applyDiff_desired key agent ns D r id d :
  isDesiredSet key ns D -> D !! id = Some d ->
  (needsRegister key r d = true /\
   entryAt (applyDiff (diff key agent ns D r) r) id
     = (Some d, Some (sidecarOf d), Some (checkOf d))) \/
  (needsRegister key r d = false /\
   entryAt (applyDiff (diff key agent ns D r) r) id = entryAt r id).
Proof.
  intros HD Hd. destruct (HD _ _ Hd) as (Hid & _).
  destruct (needsRegister key r d) eqn:Hneed; [left|right]; (split; [done|]).
  - rewrite <- Hid.
    apply (applyDiff_touched _ r (Register agent d)).
    + by apply (diff_targets_NoDup key agent ns).
    + apply elem_of_diff_Register. eauto.
  - apply applyDiff_untouched. rewrite (diff_targets key agent ns D r id HD).
    intros [[_ HnD]|(d' & Hd' & Hneed')].
    + apply HnD, elem_of_dom. by eexists.
    + congruence.
Qed.

(** An identity outside the DesiredSet after the diff is applied. *)
Lemma applyDiff_undesired key agent ns D r id :
  isDesiredSet key ns D -> D !! id = None ->
  ((id ∈ observedIDs key r) /\
   entryAt (applyDiff (diff key agent ns D r) r) id = (None, None, None)) \/
  ((id ∉ observedIDs key r) /\
   entryAt (applyDiff (diff key agent ns D r) r) id = entryAt r id).
Proof.
  intros HD Hd. apply not_elem_of_dom in Hd.
  destruct (decide (id ∈ observedIDs key r)) as [Hobs|Hobs]; [left|right];
    (split; [done|]).
  - apply (applyDiff_touched _ r (Deregister agent ns id)).
    + by apply (diff_targets_NoDup key agent ns).
    + by apply elem_of_diff_Deregister.
  - apply applyDiff_untouched. rewrite (diff_targets key agent ns D r id HD).
    intros [[? _]|(d' & Hd' & _)]; [done|].
    apply Hd, elem_of_dom. by eexists.
Qed.

(** After the diff is applied, every desired identity holds an owned
    instance with the desired address, port, tags and metadata. *)
Lemma applyDiff_holds_desired key agent ns D r id d :
  isDesiredSet key ns D -> D !! id = Some d ->
  exists o, observed key (applyDiff (diff key agent ns D r) r) !! id = Some o /\
            unchanged d o = true.
Proof.
  intros HD Hd. destruct (HD _ _ Hd) as (Hid & _ & Hown).
  destruct (applyDiff_desired key agent ns D r id d HD Hd) as [[_ He]|[Hneed He]].
  - exists d. split; [|apply unchanged_refl].
    apply map_lookup_filter_Some_2; [|done]. by apply entryAt_inv in He as (? & _).
  - apply needsRegister_false in Hneed as (o & Ho & Hsame).
    exists o. split; [|done].
    apply map_lookup_filter_Some in Ho as [Ho Hown']. rewrite Hid in Ho.
    apply map_lookup_filter_Some_2; [|done].
    by apply entryAt_same in He as (-> & _).
Qed.

(** After the diff is applied, no identity outside the DesiredSet holds an
    owned instance of either kind. *)
Lemma applyDiff_no_undesired key agent ns D r id :
  isDesiredSet key ns D -> D !! id = None ->
  id ∉ observedIDs key (applyDiff (diff key agent ns D r) r).
Proof.
  intros HD Hd Hobs. apply elem_of_observedIDs in Hobs.
  destruct (applyDiff_undesired key agent ns D r id HD Hd) as [[_ He]|[Hno He]].
  - apply entryAt_inv in He as (Hs & Hp & _).
    destruct Hobs as [(o & Ho & _)|(q & Hq & _)]; congruence.
  - apply Hno, elem_of_observedIDs.
    apply entryAt_same in He as (Hs & Hp & _). by rewrite <- Hs, <- Hp.
Qed.

(** After the diff is applied, the identities that hold an owned instance
    are those of the DesiredSet. *)
Lemma applyDiff_observed_dom key agent ns D r :
  isDesiredSet key ns D ->
  dom (observed key (applyDiff (diff key agent ns D r) r)) = dom D.
Proof.
  intros HD. apply set_eq. intros id. rewrite !elem_of_dom. split.
  - intros [o Ho]. destruct (D !! id) as [d|] eqn:Hd; [by eexists|].
    exfalso. apply (applyDiff_no_undesired key agent ns D r id HD Hd).
    unfold observedIDs. apply elem_of_union_l, elem_of_dom. by eexists.
  - intros [d Hd].
    destruct (applyDiff_holds_desired key agent ns D r id d HD Hd) as (o & Ho & _).
    by eexists.
Qed.



(** ** Executing a plan on the catalog *)

Lemma registry_applyOp (op : Op) (cat : Catalog) (a ns : string) :
  registry (applyOp op cat) a ns =
    if decide (opScope op = (a, ns)) then applyOpIn op (registry cat a ns)
    else registry cat a ns.
Proof.
  unfold applyOp, registry at 1. rewrite lookup_insert.
  fold (opScope op). case_decide as Hs; [|done].
  simpl. unfold opScope in Hs. by injection Hs as -> ->.
Qed.

Lemma registry_applyAll (ops : list Op) (cat : Catalog) (a ns : string) :
  registry (applyAll ops cat) a ns =
    applyDiff (filter (λ op, opScope op = (a, ns)) ops) (registry cat a ns).
Proof.
  revert cat. induction ops as [|op ops IH]; intros cat; [done|].
  change (applyAll (op :: ops) cat) with (applyAll ops (applyOp op cat)).
  rewrite IH, registry_applyOp, filter_cons. by case_decide.
Qed.

Lemma execute_catalog (fails : Op -> bool) (ops : list Op) (cat : Catalog) :
  (execute fails ops cat).1 = applyAll (filter (λ op, fails op = false) ops) cat.
Proof.
  revert cat. induction ops as [|op ops IH]; intros cat; [done|].
  simpl. rewrite filter_cons. destruct (fails op) eqn:Hf.
  - specialize (IH cat). destruct (execute fails ops cat) as [cat' tr].
    simpl in *. done.
  - specialize (IH (applyOp op cat)).
    destruct (execute fails ops (applyOp op cat)) as [cat' tr].
    simpl in *. done.
Qed.

Lemma execute_trace (fails : Op -> bool) (ops : list Op) (cat : Catalog) :
  (execute fails ops cat).2 =
    (λ op, {| attempted := op; succeeded := negb (fails op) |}) <$> ops.
Proof.
  revert cat. induction ops as [|op ops IH]; intros cat; [done|].
  simpl. destruct (fails op) eqn:Hf.
  - specialize (IH cat). destruct (execute fails ops cat) as [cat' tr].
    simpl in *. by rewrite IH.
  - specialize (IH (applyOp op cat)).
    destruct (execute fails ops (applyOp op cat)) as [cat' tr].
    simpl in *. by rewrite IH.
Qed.

Lemma run_catalog w key ns entries cat :
  catalog (run w key ns entries cat) =
    applyAll (filter (λ op, callFails w op = false) (plan w key ns entries cat)) cat.
Proof.
  unfold run. rewrite <- execute_catalog.
  by destruct (execute (callFails w) (plan w key ns entries cat) cat).
Qed.

Lemma run_trace w key ns entries cat :
  trace (run w key ns entries cat) =
    (λ op, {| attempted := op; succeeded := negb (callFails w op) |})
      <$> plan w key ns entries cat.
Proof.
  unfold run. rewrite <- (execute_trace _ _ cat).
  by destruct (execute (callFails w) (plan w key ns entries cat) cat).
Qed.

Lemma run_outcome w key ns entries cat :
  outcome (run w key ns entries cat) =
    if forallb succeeded (trace (run w key ns entries cat)) &&
       bool_decide (unlocatable w entries = [])
    then Success else Requeue false.
Proof.
  unfold run. by destruct (execute (callFails w) (plan w key ns entries cat) cat).
Qed.

(** ** The operations of a plan, agent by agent *)

Lemma bind_filter_scope (f : string -> list Op) (l : list string) (a ns : string) :
  NoDup l ->
  (forall x op, op ∈ f x -> opScope op = (x, ns)) ->
  filter (λ op, opScope op = (a, ns)) (l ≫= f) = if decide (a ∈ l) then f a else [].
Proof.
  intros Hnd Hf. induction l as [|x l IH]; [done|].
  apply NoDup_cons in Hnd as [Hx Hnd].
  rewrite bind_cons, filter_app, IH by done.
  destruct (decide (x = a)) as [->|Hne].
  - rewrite decide_False by done. rewrite decide_True by left.
    rewrite app_nil_r. apply filter_all. intros op Hop. by apply Hf.
  - rewrite filter_none.
    + simpl. destruct (decide (a ∈ l)) as [Hin|Hin].
      * rewrite decide_True; [done|by right].
      * rewrite decide_False; [done|].
        intros [?|?]%elem_of_cons; congruence.
    + intros op Hop Hs. rewrite (Hf x op Hop) in Hs. congruence.
Qed.

Lemma desiredAt_isDesiredSet key ns entries agent :
  entriesFor key ns entries -> isDesiredSet key ns (desiredAt entries agent).
Proof.
  intros He id d Hd. unfold desiredAt in Hd.
  apply elem_of_list_to_map_2 in Hd.
  apply list_elem_of_fmap in Hd as (e & [= -> ->] & Hin).
  apply list_elem_of_filter in Hin as [_ Hin].
  split; [done|]. by apply He.
Qed.

Lemma plan_scope w key ns entries cat op :
  entriesFor key ns entries -> op ∈ plan w key ns entries cat ->
  opAgent op ∈ agentNodes w /\ opNamespace op = ns /\
  op ∈ diff key (opAgent op) ns (desiredAt entries (opAgent op))
         (registry cat (opAgent op) ns).
Proof.
  intros He Hop. unfold plan in Hop.
  apply list_elem_of_bind in Hop as (a & Hop & Ha).
  apply elem_of_elements in Ha.
  destruct (diff_scope key a ns _ _ op (desiredAt_isDesiredSet key ns entries a He) Hop)
    as [-> ->].
  done.
Qed.

Lemma plan_at w key ns entries cat agent :
  entriesFor key ns entries -> agent ∈ agentNodes w ->
  filter (λ op, opScope op = (agent, ns)) (plan w key ns entries cat)
  = diff key agent ns (desiredAt entries agent) (registry cat agent ns).
Proof.
  intros He Ha. unfold plan. rewrite (bind_filter_scope _ _ agent ns).
  - rewrite decide_True; [done|]. by apply elem_of_elements.
  - apply NoDup_elements.
  - intros x op Hop. unfold opScope.
    by destruct (diff_scope key x ns _ _ op (desiredAt_isDesiredSet key ns entries x He) Hop)
      as [-> ->].
Qed.


(** The registry of an agent after a pass: the operations of its diff that
    did not fail, applied in order. *)
Lemma run_registry w key ns entries cat agent :
  entriesFor key ns entries -> agent ∈ agentNodes w ->
  registry (catalog (run w key ns entries cat)) agent ns =
    applyDiff
      (filter (λ op, callFails w op = false)
         (diff key agent ns (desiredAt entries agent) (registry cat agent ns)))
      (registry cat agent ns).
Proof.
  intros He Ha. rewrite run_catalog, registry_applyAll.
  rewrite <- (plan_at w key ns entries cat agent He Ha).
  rewrite !list_filter_filter. f_equal. apply list_filter_iff. tauto.
Qed.


(** ** A pass as a whole *)

Lemma ownerMatches_instanceOf key ns pod :
  ownerMatches key (instanceOf key ns pod) = true.
Proof.
  unfold ownerMatches, instanceOf. simpl.
  rewrite andb_true_iff, !bool_decide_eq_true. split.
  - rewrite lookup_insert_ne by done. by rewrite lookup_insert_eq.
  - rewrite !lookup_insert_ne by done. by rewrite lookup_insert_eq.
Qed.

Lemma desiredEntries_for w key ns snapshot :
  entriesFor key ns (desiredEntries w key ns snapshot).
Proof.
  intros e He. unfold desiredEntries in He.
  apply list_elem_of_omap in He as (addr & _ & He).
  unfold desiredEntry in He.
  destruct (Ready addr); [|done].
  destruct (TargetRef addr) as [[podNS podName]|]; [|done].
  destruct (getPod w podNS podName) as [pod|]; [|done].
  destruct (Injected pod); [|done].
  injection He as <-. simpl. split; [done|apply ownerMatches_instanceOf].
Qed.

Lemma passEntries_for w key :
  entriesFor key (passNamespace w key) (passEntries w key).
Proof.
  unfold passEntries. destruct (getEndpoints w key);
    [apply desiredEntries_for|by intros e ?%elem_of_nil..].
Qed.


(** A pass that reaches step 3 runs on the entries of its DesiredSet. *)
Lemma Reconcile_reaches w key cat :
  IsAllowed (policy w) (KeyNamespace key) = true ->
  (forall err, getEndpoints w key <> GetFailed err) ->
  Reconcile w key cat = run w key (passNamespace w key) (passEntries w key) cat.
Proof.
  intros Hal Hget. unfold Reconcile, passEntries, passNamespace. rewrite Hal. simpl.
  destruct (getEndpoints w key) as [snapshot| |err]; [done|done|].
  by destruct (Hget err).
Qed.

(** A pass that stops before step 3 calls nothing and changes nothing. *)
Lemma Reconcile_skips w key cat :
  IsAllowed (policy w) (KeyNamespace key) = false \/
  (exists err, getEndpoints w key = GetFailed err) ->
  trace (Reconcile w key cat) = [] /\ catalog (Reconcile w key cat) = cat.
Proof.
  intros Hs. unfold Reconcile.
  destruct (IsAllowed (policy w) (KeyNamespace key)); simpl; [|done].
  destruct Hs as [?|[err ->]]; done.
Qed.


Lemma elem_of_run_trace w key ns entries cat att :
  att ∈ trace (run w key ns entries cat) <->
  attempted att ∈ plan w key ns entries cat /\
  succeeded att = negb (callFails w (attempted att)).
Proof.
  rewrite run_trace, list_elem_of_fmap. split.
  - by intros (op & -> & Hop).
  - intros [Hop Hs]. exists (attempted att). split; [|done].
    destruct att as [op b]. simpl in *. by rewrite Hs.
Qed.

Lemma run_success w key ns entries cat :
  outcome (run w key ns entries cat) = Success <->
  (forall op, op ∈ plan w key ns entries cat -> callFails w op = false) /\
  unlocatable w entries = [].
Proof.
  rewrite run_outcome.
  destruct (forallb succeeded (trace (run w key ns entries cat))) eqn:Hall; simpl.
  - rewrite forallb_forall in Hall.
    assert (Hok : forall op, op ∈ plan w key ns entries cat -> callFails w op = false).
    { intros op Hop.
      specialize (Hall {| attempted := op; succeeded := negb (callFails w op) |}).
      simpl in Hall. apply negb_true_iff, Hall, list_elem_of_In.
      by apply elem_of_run_trace. }
    case_bool_decide as Hu; split; try done; by intros [_ ?].
  - split; [done|]. intros [Hok _].
    assert (forallb succeeded (trace (run w key ns entries cat)) = true); [|congruence].
    apply forallb_forall. intros att Hatt%list_elem_of_In.
    apply elem_of_run_trace in Hatt as [Hop ->]. by rewrite (Hok _ Hop).
Qed.



(** The registry of an agent none of whose calls fails: its whole diff,
    applied. *)
Lemma run_registry_complete w key ns entries cat agent :
  entriesFor key ns entries -> agent ∈ agentNodes w ->
  (forall op, op ∈ plan w key ns entries cat -> opAgent op = agent ->
     callFails w op = false) ->
  registry (catalog (run w key ns entries cat)) agent ns =
    applyDiff (diff key agent ns (desiredAt entries agent) (registry cat agent ns))
      (registry cat agent ns).
Proof.
  intros He Ha Hok. rewrite run_registry by done. f_equal.
  apply filter_all. intros op Hop.
  destruct (diff_scope key agent ns _ _ op (desiredAt_isDesiredSet key ns entries agent He) Hop)
    as [Hag _].
  apply Hok; [|done]. unfold plan. apply list_elem_of_bind.
  exists agent. split; [done|]. by apply elem_of_elements.
Qed.


Lemma passDiff_plan w key cat :
  IsAllowed (policy w) (KeyNamespace key) = true ->
  (forall err, getEndpoints w key <> GetFailed err) ->
  passDiff w key cat = plan w key (passNamespace w key) (passEntries w key) cat.
Proof.
  intros Hal Hnf. unfold passDiff. rewrite (Reconcile_reaches w key cat Hal Hnf).
  rewrite run_trace, <- list_fmap_compose.
  change (attempted ∘ _) with (@id Op). apply list_fmap_id.
Qed.

Lemma elem_of_plan w key ns entries cat agent op :
  agent ∈ agentNodes w ->
  op ∈ diff key agent ns (desiredAt entries agent) (registry cat agent ns) ->
  op ∈ plan w key ns entries cat.
Proof.
  intros Ha Hop. unfold plan. apply list_elem_of_bind.
  exists agent. split; [done|]. by apply elem_of_elements.
Qed.

Lemma observedIDs_none key r :
  (forall id, id ∉ observedIDs key r) ->
  observed key r = ∅ /\ observedProxies key r = ∅.
Proof.
  intros Hno. split; apply map_empty; intros id; apply not_elem_of_dom;
    intros Hin; apply (Hno id); unfold observedIDs;
    [by apply elem_of_union_l|by apply elem_of_union_r].
Qed.

(** C3 (amended). When the namespace of the key is allowed, its endpoints
    object is not found and no call of the pass fails, the pass returns
    success and leaves, on every agent known to the pass and in the mesh
    namespace of the key, no instance of either kind owned by the key; every
    identity that held one received a deregister call that succeeded. *)
Theorem Reconcile_deletes_all (w : World) (key : OwnerKey) (cat : Catalog) :
  IsAllowed (policy w) (KeyNamespace key) = true ->
  getEndpoints w key = NotFound ->
  (forall op, op ∈ passDiff w key cat -> callFails w op = false) ->
  outcome (Reconcile w key cat) = Success /\
  forall agent, agent ∈ agentNodes w ->
    observed key (registry (catalog (Reconcile w key cat)) agent (passNamespace w key)) = ∅ /\
    observedProxies key
      (registry (catalog (Reconcile w key cat)) agent (passNamespace w key)) = ∅ /\
    (forall id, id ∈ observedIDs key (registry cat agent (passNamespace w key)) ->
       {| attempted := Deregister agent (passNamespace w key) id; succeeded := true |}
         ∈ trace (Reconcile w key cat)).
Proof.
  intros Hal Hget Hok.
  assert (Hnf : forall err, getEndpoints w key <> GetFailed err) by (by rewrite Hget).
  rewrite (passDiff_plan w key cat Hal Hnf) in Hok.
  rewrite (Reconcile_reaches w key cat Hal Hnf).
  assert (Hent : passEntries w key = []) by (unfold passEntries; by rewrite Hget).
  rewrite Hent in *.
  assert (He : entriesFor key (passNamespace w key) []) by (by intros e ?%elem_of_nil).
  split; [by apply run_success|].
  intros agent Ha.
  rewrite (run_registry_complete w key _ _ cat agent He Ha) by (intros; by apply Hok).
  assert (HD : isDesiredSet key (passNamespace w key) (desiredAt [] agent))
    by (by apply desiredAt_isDesiredSet).
  split; [|split].
  - apply observedIDs_none. intros id. by apply applyDiff_no_undesired.
  - apply observedIDs_none. intros id. by apply applyDiff_no_undesired.
  - intros id Hid. apply elem_of_run_trace. simpl.
    assert (Hop : Deregister agent (passNamespace w key) id
                    ∈ plan w key (passNamespace w key) [] cat).
    { apply (elem_of_plan _ _ _ _ _ agent); [done|].
      apply elem_of_diff_Deregister. repeat split; [done|].
      apply not_elem_of_dom. done. }
    split; [done|]. by rewrite (Hok _ Hop).
Qed.

Lemma filter_targets_NoDup (P : Op -> Prop) `{!forall op, Decision (P op)} (ops : list Op) :
  NoDup (opTarget <$> ops) -> NoDup (opTarget <$> filter P ops).
Proof.
  intros Hnd. eapply sublist_NoDup; [done|]. apply fmap_sublist, sublist_filter.
Qed.



Lemma observed_lookup_same key r r' id :
  services r' !! id = services r !! id ->
  observed key r' !! id = observed key r !! id.
Proof.
  intros Hs. unfold observed. by rewrite !map_lookup_filter, Hs.
Qed.

Lemma observedIDs_same key r r' id :
  entryAt r' id = entryAt r id ->
  id ∈ observedIDs key r' <-> id ∈ observedIDs key r.
Proof.
  intros (Hs & Hp & _)%entryAt_same. rewrite !elem_of_observedIDs. by rewrite Hs, Hp.
Qed.

(** The diff computed after part of a diff was applied holds only calls of
    the first diff that were not applied. *)
Lemma diff_after_partial key agent ns D r (fails : Op -> bool) op :
  isDesiredSet key ns D ->
  op ∈ diff key agent ns D
         (applyDiff (filter (λ op0, fails op0 = false) (diff key agent ns D r)) r) ->
  op ∈ diff key agent ns D r /\ fails op = true.
Proof.
  intros HD Hin.
  set (applied := filter (λ op0, fails op0 = false) (diff key agent ns D r)) in *.
  assert (Hnd : NoDup (opTarget <$> applied))
    by (by apply filter_targets_NoDup, (diff_targets_NoDup key agent ns)).
  assert (Hfresh : opTarget op ∉ opTarget <$> applied).
  { intros (op' & Htg & Hop')%list_elem_of_fmap.
    pose proof (applyDiff_touched applied r op' Hnd Hop') as He'.
    rewrite <- Htg in He'.
    apply list_elem_of_filter in Hop' as [_ Hop'].
    destruct op as [a d|a ns' id]; simpl in *.
    - apply elem_of_diff_Register in Hin as (_ & (id & Hd) & Hneed).
      destruct (HD _ _ Hd) as (Hid & _ & Hown).
      destruct op' as [a' d'|a' ns'' id'']; simpl in *.
      + apply elem_of_diff_Register in Hop' as (_ & (id' & Hd') & _).
        destruct (HD _ _ Hd') as (Hid' & _).
        assert (d' = d) as -> by congruence.
        apply entryAt_inv in He' as (Hs & Hp & _).
        assert (needsRegister key (applyDiff applied r) d = false); [|congruence].
        apply needsRegister_false. exists d. split; [|apply unchanged_refl].
        by apply map_lookup_filter_Some_2.
      + apply elem_of_diff_Deregister in Hop' as (_ & _ & _ & HnD).
        apply HnD, elem_of_dom. exists d. congruence.
    - apply elem_of_diff_Deregister in Hin as (_ & _ & Hobs & HnD).
      destruct op' as [a' d'|a' ns'' id'']; simpl in *.
      + apply elem_of_diff_Register in Hop' as (_ & (id' & Hd') & _).
        destruct (HD _ _ Hd') as (Hid' & _).
        apply HnD, elem_of_dom. exists d'. congruence.
      + apply elem_of_observedIDs in Hobs.
        apply entryAt_inv in He' as (Hs & Hp & _).
        destruct Hobs as [(o & Ho & _)|(q & Hq & _)]; congruence. }
  pose proof (applyDiff_untouched applied r (opTarget op) Hfresh) as Hsame.
  assert (Hfirst : op ∈ diff key agent ns D r).
  { destruct op as [a d|a ns' id]; simpl in *.
    - apply elem_of_diff_Register in Hin as (Hag & Hd & Hneed).
      apply elem_of_diff_Register. split; [done|]. split; [done|].
      unfold needsRegister in *.
      rewrite <- (observed_lookup_same key r (applyDiff applied r)); [done|].
      destruct Hd as (id & Hd). destruct (HD _ _ Hd) as (Hid & _).
      by apply entryAt_same in Hsame as (? & _).
    - apply elem_of_diff_Deregister in Hin as (Hag & Hns' & Hobs & HnD).
      apply elem_of_diff_Deregister. repeat split; [done|done| |done].
      by apply (observedIDs_same key r (applyDiff applied r)). }
  split; [done|].
  destruct (fails op) eqn:Hf; [done|].
  exfalso. apply Hfresh, list_elem_of_fmap_2, list_elem_of_filter. done.
Qed.

(** With failing calls, the diff of a second pass in the same world holds
    only calls of the first pass that failed: whatever succeeded is not
    issued again. *)
Lemma second_pass_retries_failed w key cat op :
  op ∈ passDiff w key (catalog (Reconcile w key cat)) ->
  op ∈ passDiff w key cat /\ callFails w op = true.
Proof.
  intros Hop.
  destruct (IsAllowed (policy w) (KeyNamespace key)) eqn:Hal.
  2:{ unfold passDiff in Hop.
      destruct (Reconcile_skips w key (catalog (Reconcile w key cat)) (or_introl Hal))
        as [Htr _].
      rewrite Htr in Hop. by apply elem_of_nil in Hop. }
  assert (Hnf : forall err, getEndpoints w key <> GetFailed err).
  { intros err Hget. unfold passDiff in Hop.
    destruct (Reconcile_skips w key (catalog (Reconcile w key cat))
                (or_intror (ex_intro _ err Hget))) as [Htr _].
    rewrite Htr in Hop. by apply elem_of_nil in Hop. }
  rewrite (passDiff_plan w key _ Hal Hnf) in Hop.
  rewrite (passDiff_plan w key cat Hal Hnf).
  rewrite (Reconcile_reaches w key cat Hal Hnf) in Hop.
  pose proof (passEntries_for w key) as He.
  destruct (plan_scope w key _ _ _ op He Hop) as (Ha & Hns & Hin).
  rewrite (run_registry w key _ _ cat _ He Ha) in Hin.
  apply diff_after_partial in Hin as [Hin Hf]; [|by apply desiredAt_isDesiredSet].
  split; [|done]. by apply (elem_of_plan _ _ _ _ _ (opAgent op)).
Qed.

(** What [ListByOwner] returns: the owner-matching instances of either
    kind that the agent holds in the namespace. *)
Lemma elem_of_ListByOwner cat agent ns key inst :
  inst ∈ ListByOwner cat agent ns key <->
  (exists id, observed key (registry cat agent ns) !! id = Some inst) \/
  (exists id, observedProxies key (registry cat agent ns) !! id = Some inst).
Proof.
  unfold ListByOwner. rewrite elem_of_app, !list_elem_of_fmap.
  split; (intros [H|H]; [left|right]).
  - destruct H as ([id i] & -> & Hin). exists id. by apply elem_of_map_to_list.
  - destruct H as ([id i] & -> & Hin). exists id. by apply elem_of_map_to_list.
  - destruct H as (id & Hin). exists (id, inst). split; [done|].
    by apply elem_of_map_to_list.
  - destruct H as (id & Hin). exists (id, inst). split; [done|].
    by apply elem_of_map_to_list.
Qed.

(** After a pass that returns success in an allowed namespace, every agent
    holds, as the instances owned by the key, its DesiredSet by ServiceID. *)
Lemma Reconcile_converges w key cat agent :
  IsAllowed (policy w) (KeyNamespace key) = true ->
  outcome (Reconcile w key cat) = Success ->
  agent ∈ agentNodes w ->
  dom (observed key (registry (catalog (Reconcile w key cat)) agent (passNamespace w key)))
    = dom (DesiredSet w key agent).
Proof.
  intros Hal Hout Ha.
  assert (Hnf : forall err, getEndpoints w key <> GetFailed err).
  { intros err Hget. unfold Reconcile in Hout. by rewrite Hal, Hget in Hout. }
  rewrite (Reconcile_reaches w key cat Hal Hnf) in *.
  apply run_success in Hout as [Hok _].
  pose proof (passEntries_for w key) as He.
  rewrite (run_registry_complete w key _ _ cat agent He Ha) by (intros; by apply Hok).
  by apply applyDiff_observed_dom, desiredAt_isDesiredSet.
Qed.



End EngineFacts.

(* ===================================================================== *)
(** * The pairing of primaries and sidecar-proxies, call by call *)
(* ===================================================================== *)

Section WireFacts.

Import Engine Wire.

(** *** Suffixes *)

Lemma HasSuffix_refl (s : string) : Strings.HasSuffix s s = true.
Proof.
  destruct s; [reflexivity|]. cbn [Strings.HasSuffix]. by rewrite String.eqb_refl.
Qed.

Lemma HasSuffix_append (x s : string) : Strings.HasSuffix (x +:+ s) s = true.
Proof.
  induction x as [|c x IH]; [apply HasSuffix_refl|].
  change (String c x +:+ s) with (String c (x +:+ s)). cbn [Strings.HasSuffix].
  rewrite IH. apply orb_true_r.
Qed.

Lemma string_length_append (a b : string) :
  String.length (a +:+ b) = (String.length a + String.length b)%nat.
Proof.
  induction a as [|x a IH]; [reflexivity|].
  change (S (String.length (a +:+ b)) = S (String.length a + String.length b)).
  by f_equal.
Qed.

Lemma string_append_inj_r (a b s : string) : a +:+ s = b +:+ s -> a = b.
Proof.
  revert b. induction a as [|x a IH]; intros [|y b] Heq; [done| | |].
  - apply (f_equal String.length) in Heq.
    change ("" +:+ s) with s in Heq. rewrite string_length_append in Heq. simpl in Heq. lia.
  - apply (f_equal String.length) in Heq.
    change ("" +:+ s) with s in Heq. rewrite string_length_append in Heq. simpl in Heq. lia.
  - change (String x (a +:+ s) = String y (b +:+ s)) in Heq.
    injection Heq as -> Heq. f_equal. by apply IH.
Qed.

Lemma plain_not_suffixed (id x : string) :
  Strings.HasSuffix id proxySuffix = false -> id <> x +:+ proxySuffix.
Proof. intros Hp ->. by rewrite HasSuffix_append in Hp. Qed.

Lemma suffixed_ne (id : string) : id <> id +:+ proxySuffix.
Proof.
  intros Heq. apply (f_equal String.length) in Heq.
  rewrite string_length_append in Heq. simpl in Heq. lia.
Qed.

(** *** One call *)

Lemma store_empty (agent ns : string) : store ∅ agent ns = emptyStore.
Proof. unfold store. by rewrite lookup_empty. Qed.

Lemma store_applyCall_same (c : Call) (m : Mesh) (agent ns : string) :
  callScope c = (agent, ns) ->
  store (applyCall c m) agent ns = applyCallIn c (store m agent ns).
Proof.
  intros Hs. unfold store at 1, applyCall. rewrite Hs. simpl.
  by rewrite lookup_insert_eq.
Qed.

Lemma store_applyCall_other (c : Call) (m : Mesh) (agent ns : string) :
  callScope c <> (agent, ns) ->
  store (applyCall c m) agent ns = store m agent ns.
Proof.
  intros Hs. unfold store, applyCall. by rewrite lookup_insert_ne.
Qed.

Lemma applyCallIn_frame (c : Call) (s : Store) (k : string) :
  callKey c <> Some k ->
  instances (applyCallIn c s) !! k = instances s !! k.
Proof.
  destruct c as [a x|a ns sid|a ns chk]; simpl; intros Hk.
  - rewrite lookup_insert_ne; [done|congruence].
  - rewrite lookup_delete_ne; [done|congruence].
  - done.
Qed.

Lemma applyCall_frame (c : Call) (m : Mesh) (agent ns k : string) :
  callScope c <> (agent, ns) \/ callKey c <> Some k ->
  instances (store (applyCall c m) agent ns) !! k = instances (store m agent ns) !! k.
Proof.
  intros Hcase. destruct (decide (callScope c = (agent, ns))) as [Hs|Hs].
  - rewrite store_applyCall_same by done. apply applyCallIn_frame.
    by destruct Hcase.
  - by rewrite store_applyCall_other.
Qed.

(** *** One operation *)

Lemma issue_frame (fails : Call -> bool) (cs : list Call) (m : Mesh)
    (agent ns k : string) :
  (forall c, c ∈ cs -> callScope c <> (agent, ns) \/ callKey c <> Some k) ->
  instances (store (issue fails cs m).1 agent ns) !! k = instances (store m agent ns) !! k.
Proof.
  revert m. induction cs as [|c cs IH]; intros m Hcs; simpl; [done|].
  destruct (fails c); [done|].
  rewrite IH by (intros c' Hc'; apply Hcs; by right).
  apply applyCall_frame, Hcs. by left.
Qed.

Lemma calls_touch (op : Op) (c : Call) :
  c ∈ calls op ->
  callScope c = opScope op /\
  (callKey c = None \/ callKey c = Some (opTarget op) \/
   callKey c = Some (opTarget op +:+ proxySuffix)).
Proof.
  destruct op as [a d|a ns sid]; simpl; intros Hc.
  - apply elem_of_cons in Hc as [->|Hc]; [split; [done|by right; left]|].
    apply elem_of_cons in Hc as [->|Hc]; [split; [done|by right; right]|].
    apply list_elem_of_singleton in Hc as ->. split; [done|by left].
  - apply elem_of_cons in Hc as [->|Hc]; [split; [done|by right; left]|].
    apply list_elem_of_singleton in Hc as ->. split; [done|by right; right].
Qed.

(** The calls of an operation leave every other identity as it was. *)
Lemma op_frame (fails : Call -> bool) (op : Op) (m : Mesh) (agent ns k : string) :
  opScope op <> (agent, ns) \/ (k <> opTarget op /\ k <> opTarget op +:+ proxySuffix) ->
  instances (store (issue fails (calls op) m).1 agent ns) !! k
  = instances (store m agent ns) !! k.
Proof.
  intros Hcase. apply issue_frame. intros c Hc.
  apply calls_touch in Hc as [Hs Hk]. rewrite Hs.
  destruct Hcase as [Hscope|[Hk1 Hk2]]; [by left|]. right.
  destruct Hk as [Hk | [Hk | Hk]]; rewrite Hk; congruence.
Qed.

(** An operation all of whose calls succeeded took effect on the primary
    and on its sidecar-proxy, in the store of its agent. *)
Lemma issue_settles (fails : Call -> bool) (op : Op) (m : Mesh) :
  (issue fails (calls op) m).2 = true -> settled op (issue fails (calls op) m).1.
Proof.
  unfold settled, pairAt.
  destruct op as [a d|a ns sid]; simpl.
  - destruct (fails (RegisterCall a d)); [done|].
    destruct (fails (RegisterCall a (sidecarOf d))); [done|].
    destruct (fails (SetHealthCall a (Namespace d) (checkOf d))); [done|].
    intros _. simpl.
    rewrite !(store_applyCall_same _ _ a (Namespace d)) by done. simpl.
    rewrite lookup_insert_eq.
    rewrite lookup_insert_ne by (apply not_eq_sym, suffixed_ne).
    by rewrite lookup_insert_eq.
  - destruct (fails (DeregisterCall a ns sid)); [done|].
    destruct (fails (DeregisterCall a ns (sid +:+ proxySuffix))); [done|].
    intros _. simpl.
    rewrite !(store_applyCall_same _ _ a ns) by done. simpl.
    rewrite lookup_delete_eq.
    rewrite lookup_delete_ne by (apply not_eq_sym, suffixed_ne).
    by rewrite lookup_delete_eq.
Qed.

(** *** The shape of the held instances *)

Lemma Named_applyCallIn (c : Call) (s : Store) :
  Named s ->
  (forall a x, c = RegisterCall a x -> shaped x) ->
  Named (applyCallIn c s).
Proof.
  intros Hn Hc i x. destruct c as [a y|a ns sid|a ns chk]; simpl.
  - destruct (decide (i = ServiceID y)) as [->|Hne].
    + rewrite lookup_insert_eq. intros [= <-]. split; [done|by eapply Hc].
    + rewrite lookup_insert_ne by done. apply Hn.
  - intros Hx. apply lookup_delete_Some in Hx as [_ Hx]. by apply Hn.
  - apply Hn.
Qed.

Lemma Named_applyCall (c : Call) (m : Mesh) :
  (forall agent ns, Named (store m agent ns)) ->
  (forall a x, c = RegisterCall a x -> shaped x) ->
  forall agent ns, Named (store (applyCall c m) agent ns).
Proof.
  intros Hn Hc agent ns. destruct (decide (callScope c = (agent, ns))) as [Hs|Hs].
  - rewrite store_applyCall_same by done. by apply Named_applyCallIn.
  - by rewrite store_applyCall_other.
Qed.

Lemma Named_issue (fails : Call -> bool) (cs : list Call) (m : Mesh) :
  (forall agent ns, Named (store m agent ns)) ->
  (forall c a x, c ∈ cs -> c = RegisterCall a x -> shaped x) ->
  forall agent ns, Named (store (issue fails cs m).1 agent ns).
Proof.
  revert m. induction cs as [|c cs IH]; intros m Hn Hcs; simpl; [done|].
  destruct (fails c); [done|].
  apply IH.
  - apply Named_applyCall; [done|]. intros a x. apply Hcs. by left.
  - intros c' a x Hc'. apply Hcs. by right.
Qed.

Lemma calls_shaped (op : Op) (c : Call) (a : string) (x : ServiceInstance) :
  wellFormed op -> c ∈ calls op -> c = RegisterCall a x -> shaped x.
Proof.
  intros [Hplain Hkind] Hc ->. destruct op as [a' d|a' ns sid]; simpl in *.
  - apply elem_of_cons in Hc as [[= -> ->]|Hc].
    + unfold shaped. by rewrite Hkind.
    + apply elem_of_cons in Hc as [[= -> ->]|Hc].
      * unfold shaped. simpl. done.
      * by apply list_elem_of_singleton in Hc.
  - apply elem_of_cons in Hc as [?|Hc]; [done|].
    by apply list_elem_of_singleton in Hc.
Qed.

(** *** The log *)

Lemma lastOn_snoc (log : list Attempt) (a : Attempt) (agent ns id : string) :
  lastOn (log ++ [a]) agent ns id
  = if decide (concerns agent ns id a) then Some a else lastOn log agent ns id.
Proof.
  unfold lastOn. rewrite filter_app, filter_cons, filter_nil.
  destruct (decide (concerns agent ns id a)).
  - by rewrite last_snoc.
  - by rewrite app_nil_r.
Qed.

Lemma lastOn_Some (log : list Attempt) (a : Attempt) (agent ns id : string) :
  lastOn log agent ns id = Some a -> a ∈ log /\ concerns agent ns id a.
Proof.
  unfold lastOn. intros Hl. apply last_Some in Hl as [l' Hl].
  assert (Hin : a ∈ filter (concerns agent ns id) log)
    by (rewrite Hl; apply elem_of_app; right; by left).
  apply list_elem_of_filter in Hin as [? ?]. done.
Qed.

(** *** The invariant of the reachable states *)

(** What holds of a log and the catalog it led to: the held instances are
    shaped, the operations attempted were well formed, and the last
    operation on an identity, when it completed, is still in effect. *)
Lemma invariant_step (fails : Call -> bool) (op : Op) (log : list Attempt) (m : Mesh) :
  wellFormed op ->
  (forall agent ns, Named (store m agent ns)) ->
  (forall a, a ∈ log -> wellFormed (attempted a)) ->
  (forall agent ns id a, lastOn log agent ns id = Some a -> succeeded a = true ->
     settled (attempted a) m) ->
  let m' := (issue fails (calls op) m).1 in
  let log' := log ++ [{| attempted := op; succeeded := (issue fails (calls op) m).2 |}] in
  (forall agent ns, Named (store m' agent ns)) /\
  (forall a, a ∈ log' -> wellFormed (attempted a)) /\
  (forall agent ns id a, lastOn log' agent ns id = Some a -> succeeded a = true ->
     settled (attempted a) m').
Proof.
  intros Hop Hn Hlog Hlast. simpl. split; [|split].
  - apply Named_issue; [done|]. intros c a x. by apply calls_shaped.
  - intros a Ha. apply elem_of_app in Ha as [Ha|Ha]; [by apply Hlog|].
    apply list_elem_of_singleton in Ha as ->. done.
  - intros agent ns id a. rewrite lastOn_snoc.
    destruct (decide (concerns agent ns id _)) as [Hc|Hc].
    + intros [= <-]. simpl. apply issue_settles.
    + intros Hl Hok.
      pose proof (Hlast agent ns id a Hl Hok) as Hset.
      apply lastOn_Some in Hl as [Hin [Hscope Htarget]].
      destruct (Hlog a Hin) as [Hplain _]. destruct Hop as [Hplain' _].
      unfold concerns in Hc. simpl in Hc.
      unfold opScope in Hscope. injection Hscope as Hag Hns.
      unfold settled, pairAt in *. rewrite Hag, Hns, Htarget in *.
      rewrite <- Hset. f_equal.
      * apply op_frame.
        destruct (decide (opScope op = (agent, ns))) as [Hs|Hs]; [|by left].
        right. split; [intros ->; by apply Hc|]. by apply plain_not_suffixed.
      * apply op_frame.
        destruct (decide (opScope op = (agent, ns))) as [Hs|Hs]; [|by left].
        right. split.
        -- apply not_eq_sym, plain_not_suffixed. done.
        -- intros Heq. apply string_append_inj_r in Heq. subst id. by apply Hc.
Qed.

Lemma execute_cons (fails : Call -> bool) (op : Op) (ops : list Op) (m : Mesh) :
  execute fails (op :: ops) m
  = ((execute fails ops (issue fails (calls op) m).1).1,
     {| attempted := op; succeeded := (issue fails (calls op) m).2 |}
       :: (execute fails ops (issue fails (calls op) m).1).2).
Proof.
  simpl. destruct (issue fails (calls op) m) as [m1 ok]. simpl.
  by destruct (execute fails ops m1).
Qed.

Lemma invariant_execute (fails : Call -> bool) (ops : list Op) (log : list Attempt)
    (m : Mesh) :
  (forall op, op ∈ ops -> wellFormed op) ->
  (forall agent ns, Named (store m agent ns)) ->
  (forall a, a ∈ log -> wellFormed (attempted a)) ->
  (forall agent ns id a, lastOn log agent ns id = Some a -> succeeded a = true ->
     settled (attempted a) m) ->
  (forall agent ns, Named (store (execute fails ops m).1 agent ns)) /\
  (forall a, a ∈ log ++ (execute fails ops m).2 -> wellFormed (attempted a)) /\
  (forall agent ns id a,
     lastOn (log ++ (execute fails ops m).2) agent ns id = Some a ->
     succeeded a = true -> settled (attempted a) (execute fails ops m).1).
Proof.
  revert log m. induction ops as [|op ops IH]; intros log m Hops Hn Hlog Hlast.
  - simpl. by rewrite app_nil_r.
  - rewrite execute_cons. simpl. rewrite cons_middle, app_assoc.
    destruct (invariant_step fails op log m) as (Hn' & Hlog' & Hlast');
      [apply Hops; by left|done..|].
    apply IH; [|done..]. intros op' Hop'. apply Hops. by right.
Qed.

(** *** The operations of a plan *)

Lemma view_empty : view emptyStore = emptyRegistry.
Proof.
  unfold view, emptyStore, emptyRegistry. simpl.
  rewrite map_filter_empty, map_to_list_empty. simpl.
  by rewrite map_to_list_empty.
Qed.

Lemma registry_observedCatalog (m : Mesh) (agent ns : string) :
  registry (observedCatalog m) agent ns = view (store m agent ns).
Proof.
  unfold registry, observedCatalog, store. rewrite lookup_fmap.
  destruct (m !! (agent, ns)); simpl; [done|]. by rewrite view_empty.
Qed.

(** An identity the diff observes in a store is the ServiceID of a held
    primary, or the back-reference of a held sidecar-proxy. *)
Lemma observedIDs_view (key : OwnerKey) (s : Store) (id : string) :
  Named s -> id ∈ observedIDs key (view s) ->
  Strings.HasSuffix id proxySuffix = false.
Proof.
  intros Hn Hid. apply elem_of_observedIDs in Hid as [(o & Ho & _)|(q & Hq & _)].
  - simpl in Ho. apply map_lookup_filter_Some in Ho as [Ho Hkind]. simpl in Hkind.
    destruct (Hn id o Ho) as [Hid Hshape]. unfold shaped in Hshape.
    rewrite Hkind in Hshape. by rewrite <- Hid.
  - simpl in Hq. apply elem_of_list_to_map_2 in Hq.
    apply list_elem_of_omap in Hq as ([i x] & Hx & Hback).
    apply elem_of_map_to_list in Hx. simpl in Hback.
    destruct (Hn i x Hx) as [_ Hshape]. unfold shaped in Hshape.
    unfold backReference in Hback.
    destruct (ServiceKind x) as [|n sid]; [done|].
    simpl in Hback. injection Hback as -> ->. by destruct Hshape as (_ & ? & _).
Qed.

Lemma passEntries_Primary (w : World) (key : OwnerKey) (e : string * ServiceInstance) :
  e ∈ passEntries w key -> ServiceKind e.2 = Primary.
Proof.
  unfold passEntries. destruct (getEndpoints w key) as [snapshot| |err];
    [|by intros ?%elem_of_nil..].
  unfold desiredEntries. intros He.
  apply list_elem_of_omap in He as (addr & _ & He).
  unfold desiredEntry in He.
  destruct (Ready addr); [|done].
  destruct (TargetRef addr) as [[podNS podName]|]; [|done].
  destruct (getPod w podNS podName) as [pod|]; [|done].
  destruct (Injected pod); [|done].
  by injection He as <-.
Qed.

Lemma plan_wellFormed (w : World) (key : OwnerKey) (m : Mesh) (op : Op) :
  wellNamed w key = true ->
  (forall agent ns, Named (store m agent ns)) ->
  op ∈ plan w key (passNamespace w key) (passEntries w key) (observedCatalog m) ->
  wellFormed op.
Proof.
  intros Hw Hn Hop. unfold plan in Hop.
  apply list_elem_of_bind in Hop as (agent & Hop & _).
  rewrite registry_observedCatalog in Hop.
  destruct op as [a d|a ns sid].
  - apply elem_of_diff_Register in Hop as (_ & (id & Hd) & _).
    unfold desiredAt in Hd. apply elem_of_list_to_map_2 in Hd.
    apply list_elem_of_fmap in Hd as (e & [= -> ->] & He).
    apply list_elem_of_filter in He as [_ He].
    split; [|by apply (passEntries_Primary w key)].
    unfold wellNamed in Hw. rewrite forallb_forall in Hw.
    apply list_elem_of_In, Hw in He. by apply negb_true_iff in He.
  - apply elem_of_diff_Deregister in Hop as (_ & _ & Hid & _).
    split; [|done]. simpl. by eapply observedIDs_view.
Qed.

Lemma invariant_reaches (log : list Attempt) (m : Mesh) :
  reaches wellNamed log m ->
  (forall agent ns, Named (store m agent ns)) /\
  (forall a, a ∈ log -> wellFormed (attempted a)) /\
  (forall agent ns id a, lastOn log agent ns id = Some a -> succeeded a = true ->
     settled (attempted a) m).
Proof.
  induction 1 as [|w fails key log m Hw Hr (Hn & Hlog & Hlast)].
  - split; [|split].
    + intros agent ns i x. rewrite store_empty. simpl. by rewrite lookup_empty.
    + by intros a ?%elem_of_nil.
    + done.
  - unfold pass.
    destruct (negb (IsAllowed (policy w) (KeyNamespace key))).
    { simpl. by rewrite app_nil_r. }
    assert (Hexec :
      let r := execute fails
                 (plan w key (passNamespace w key) (passEntries w key) (observedCatalog m))
                 m in
      (forall agent ns, Named (store r.1 agent ns)) /\
      (forall a, a ∈ log ++ r.2 -> wellFormed (attempted a)) /\
      (forall agent ns id a, lastOn (log ++ r.2) agent ns id = Some a ->
         succeeded a = true -> settled (attempted a) r.1)).
    { apply invariant_execute; [|done..]. intros op. by apply plan_wellFormed. }
    destruct (getEndpoints w key); [exact Hexec|exact Hexec|].
    simpl. by rewrite app_nil_r.
Qed.

(** C7 (amended). In every state reached by passes whose desired instances
    have a ServiceID that does not end with the suffix of the
    sidecar-proxies: a held sidecar-proxy sits under the ServiceID of the
    primary it refers to followed by the suffix, with the proxy port, so a
    primary has at most one; for an identity whose last operation completed,
    the agent holds the primary exactly when it holds its sidecar-proxy, and
    the two are paired; and an operation that completes takes effect on the
    primary and its sidecar-proxy together, in the store of its agent. *)
Theorem pairing_invariant (log : list Attempt) (m : Mesh) :
  reaches wellNamed log m ->
  (forall agent ns i q n sid,
     instances (store m agent ns) !! i = Some q ->
     ServiceKind q = SidecarProxy n sid ->
     i = sid +:+ proxySuffix /\ ServiceID q = i /\ ServicePort q = proxyPort) /\
  (forall agent ns i1 i2 q1 q2 sid,
     instances (store m agent ns) !! i1 = Some q1 ->
     instances (store m agent ns) !! i2 = Some q2 ->
     backReference q1 = Some sid -> backReference q2 = Some sid ->
     i1 = i2 /\ q1 = q2) /\
  (forall agent ns id a,
     lastOn log agent ns id = Some a -> succeeded a = true ->
     (forall p, instances (store m agent ns) !! id = Some p ->
        instances (store m agent ns) !! (id +:+ proxySuffix) = Some (sidecarOf p)) /\
     (forall q, instances (store m agent ns) !! (id +:+ proxySuffix) = Some q ->
        exists p, instances (store m agent ns) !! id = Some p /\ q = sidecarOf p)) /\
  (forall fails op m0,
     (issue fails (calls op) m0).2 = true ->
     settled op (issue fails (calls op) m0).1 /\
     forall c, c ∈ calls op -> callScope c = (opAgent op, opNamespace op)).
Proof.
  intros Hr. destruct (invariant_reaches log m Hr) as (Hn & Hlog & Hlast).
  assert (Hproxy : forall agent ns i q n sid,
            instances (store m agent ns) !! i = Some q ->
            ServiceKind q = SidecarProxy n sid ->
            i = sid +:+ proxySuffix /\ ServiceID q = i /\ ServicePort q = proxyPort).
  { intros agent ns i q n sid Hq Hkind.
    destruct (Hn agent ns i q Hq) as [Hid Hshape]. unfold shaped in Hshape.
    rewrite Hkind in Hshape. destruct Hshape as (Hsuf & _ & Hport).
    split; [congruence|done]. }
  split; [exact Hproxy|]. split; [|split].
  - intros agent ns i1 i2 q1 q2 sid H1 H2 Hb1 Hb2.
    unfold backReference in Hb1, Hb2.
    destruct (ServiceKind q1) as [|n1 s1] eqn:Hk1; [done|].
    destruct (ServiceKind q2) as [|n2 s2] eqn:Hk2; [done|].
    injection Hb1 as ->. injection Hb2 as ->.
    destruct (Hproxy _ _ _ _ _ _ H1 Hk1) as [-> _].
    destruct (Hproxy _ _ _ _ _ _ H2 Hk2) as [-> _].
    split; [done|congruence].
  - intros agent ns id a Hl Hok.
    pose proof (Hlast agent ns id a Hl Hok) as Hset.
    apply lastOn_Some in Hl as [_ [Hscope Htarget]].
    unfold opScope in Hscope. injection Hscope as Hag Hns.
    unfold settled, pairAt in Hset. rewrite Hag, Hns, Htarget in Hset.
    destruct (attempted a) as [a' d|a' ns' sid];
      injection Hset as Hp Hq; rewrite Hp, Hq.
    + split.
      * by intros p [= <-].
      * intros q [= <-]. by exists d.
    + split; [done|]. by intros q.
  - intros fails op m0 Hok. split; [by apply issue_settles|].
    intros c Hc. by apply calls_touch in Hc as [-> _].
Qed.

End WireFacts.

(* ===================================================================== *)
(** * The engine on the scenarios of the tests, with two agents *)
(* ===================================================================== *)

Section Scenarios.

Import Engine Fixtures.

(** The scenario of section 8: the two primaries and their sidecar-proxies
    end up registered, one pair on each agent, in namespace "kube". *)
Lemma created_scenario :
  outcome (Reconcile createdWorld createdKey ∅) = Success /\
  services (registry createdCatalog "10.0.0.1" "kube")
    = {[ "pod1-service-created" := instance1 ]} /\
  proxies (registry createdCatalog "10.0.0.1" "kube")
    = {[ "pod1-service-created" := sidecarOf instance1 ]} /\
  services (registry createdCatalog "10.0.0.2" "kube")
    = {[ "pod2-service-created" := instance2 ]} /\
  proxies (registry createdCatalog "10.0.0.2" "kube")
    = {[ "pod2-service-created" := sidecarOf instance2 ]} /\
  ServiceID (sidecarOf instance1) = "pod1-service-created-sidecar-proxy" /\
  Namespace instance1 = "kube" /\
  ownerMatches createdKey instance1 = true.
Proof. repeat (apply conj; [vm_compute; reflexivity|]). vm_compute. reflexivity. Qed.

(** The scenario of section 8 "address count drops from 2 to 0": both
    pairs are deregistered and nothing owned by the key is left. *)
Lemma scaled_to_zero_scenario :
  let result := Reconcile scaledToZeroWorld createdKey createdCatalog in
  outcome result = Success /\
  length (trace result) = 2%nat /\
  registry (catalog result) "10.0.0.1" "kube" = emptyRegistry /\
  registry (catalog result) "10.0.0.2" "kube" = emptyRegistry.
Proof. repeat (apply conj; [vm_compute; reflexivity|]). vm_compute. reflexivity. Qed.

(** The pod IP change: one register call, after which the instance and its
    sidecar-proxy carry the new address. *)
Lemma moved_scenario :
  let result := Reconcile movedWorld createdKey staleCatalog in
  let moved := instanceOf createdKey "kube" (injectedPod "pod1" "4.4.4.4" "127.0.0.1") in
  outcome result = Success /\
  passDiff movedWorld createdKey staleCatalog = [Register "127.0.0.1" moved] /\
  ServiceAddress moved = "4.4.4.4" /\
  services (registry (catalog result) "127.0.0.1" "kube")
    = {[ "pod1-service-created" := moved ]} /\
  proxies (registry (catalog result) "127.0.0.1" "kube")
    = {[ "pod1-service-created" := sidecarOf moved ]}.
Proof. repeat (apply conj; [vm_compute; reflexivity|]). vm_compute. reflexivity. Qed.

(** A denied namespace is a no-op success (step 1). *)
Lemma denied_scenario :
  outcome (Reconcile deniedWorld createdKey createdCatalog) = Success /\
  trace (Reconcile deniedWorld createdKey createdCatalog) = [] /\
  catalog (Reconcile deniedWorld createdKey createdCatalog) = createdCatalog.
Proof. repeat split. Qed.



(** C3 (amended) on the deletion of the service, whose instances span two
    agents. *)
Lemma Reconcile_deletes_all_witness :
  IsAllowed (policy deletedWorld) (KeyNamespace createdKey) = true /\
  getEndpoints deletedWorld createdKey = NotFound /\
  outcome (Reconcile deletedWorld createdKey createdCatalog) = Success /\
  observed createdKey
    (registry (catalog (Reconcile deletedWorld createdKey createdCatalog))
       "10.0.0.1" "kube") = ∅ /\
  observed createdKey
    (registry (catalog (Reconcile deletedWorld createdKey createdCatalog))
       "10.0.0.2" "kube") = ∅.
Proof.
  assert (Hal : IsAllowed (policy deletedWorld) (KeyNamespace createdKey) = true)
    by reflexivity.
  assert (Hget : getEndpoints deletedWorld createdKey = NotFound) by reflexivity.
  pose proof (Reconcile_deletes_all deletedWorld createdKey createdCatalog Hal Hget
                (fun op _ => eq_refl)) as [Hout Hagents].
  split; [exact Hal|]. split; [exact Hget|]. split; [exact Hout|]. split.
  - apply (Hagents "10.0.0.1"). set_solver.
  - apply (Hagents "10.0.0.2"). set_solver.
Defined.




(** C3 as worded fails, for a key whose endpoints object is not found and
    the catalog that holds its two pairs: in a denied namespace the pass is
    a no-op success; with the second agent refusing its calls the pass is a
    retryable failure; with the second node no longer running an agent the
    pass succeeds without reaching it. Each time an instance of the key is
    left. *)
Lemma Reconcile_deletes_all_counterexample :
  let both : gset string := {["10.0.0.1"; "10.0.0.2"]} in
  let denied :=
    Reconcile (deletedIn (policy deniedWorld) both noFailure) createdKey createdCatalog in
  let refused :=
    Reconcile (deletedIn mirrorPolicy both (callFails secondAgentDown))
      createdKey createdCatalog in
  let unknown :=
    Reconcile (deletedIn mirrorPolicy {["10.0.0.1"]} noFailure) createdKey createdCatalog in
  (outcome denied = Success /\
   observed createdKey (registry (catalog denied) "10.0.0.1" "kube")
     !! "pod1-service-created" = Some instance1) /\
  (outcome refused = Requeue false /\
   observed createdKey (registry (catalog refused) "10.0.0.2" "kube")
     !! "pod2-service-created" = Some instance2) /\
  (outcome unknown = Success /\
   observed createdKey (registry (catalog unknown) "10.0.0.2" "kube")
     !! "pod2-service-created" = Some instance2).
Proof.
  intros both denied refused unknown.
  split; [split|split; split]; vm_compute; reflexivity.
Qed.

End Scenarios.

Section WireScenarios.
Import Engine Wire Fixtures.

(** C7 on the creation of the service with the second agent refusing the
    registration of the sidecar-proxy: on the first agent the operation
    completed and the pair is held; on the second the operation did not
    complete, and the primary is held alone. *)
Lemma pairing_invariant_witness :
  let fails := refusing "10.0.0.2" "pod2-service-created-sidecar-proxy" in
  let r := pass createdWorld fails createdKey ∅ in
  reaches wellNamed r.2 r.1 /\
  lastOn r.2 "10.0.0.1" "kube" "pod1-service-created"
    = Some {| attempted := Register "10.0.0.1" instance1; succeeded := true |} /\
  instances (store r.1 "10.0.0.1" "kube") !! "pod1-service-created" = Some instance1 /\
  instances (store r.1 "10.0.0.1" "kube") !! "pod1-service-created-sidecar-proxy"
    = Some (sidecarOf instance1) /\
  lastOn r.2 "10.0.0.2" "kube" "pod2-service-created"
    = Some {| attempted := Register "10.0.0.2" instance2; succeeded := false |} /\
  instances (store r.1 "10.0.0.2" "kube") !! "pod2-service-created" = Some instance2 /\
  instances (store r.1 "10.0.0.2" "kube") !! "pod2-service-created-sidecar-proxy" = None.
Proof.
  intros fails r.
  assert (Hw : wellNamed createdWorld createdKey = true) by (vm_compute; reflexivity).
  assert (Hr : reaches wellNamed r.2 r.1)
    by exact (reaches_pass wellNamed createdWorld fails createdKey [] ∅ Hw
                (reaches_empty wellNamed)).
  assert (Hl : lastOn r.2 "10.0.0.1" "kube" "pod1-service-created"
               = Some {| attempted := Register "10.0.0.1" instance1; succeeded := true |})
    by (vm_compute; reflexivity).
  assert (Hp : instances (store r.1 "10.0.0.1" "kube") !! "pod1-service-created"
               = Some instance1) by (vm_compute; reflexivity).
  destruct (pairing_invariant r.2 r.1 Hr) as (_ & _ & Hpair & _).
  destruct (Hpair "10.0.0.1" "kube" "pod1-service-created" _ Hl eq_refl) as [Hproxy _].
  split; [exact Hr|]. split; [exact Hl|]. split; [exact Hp|].
  split; [exact (Hproxy instance1 Hp)|].
  split; [vm_compute; reflexivity|]. split; vm_compute; reflexivity.
Defined.

(** C7 as worded fails. With a service named "sidecar-proxy" and the pods
    "pod1" and "pod1-sidecar-proxy", the primary of the second pod and the
    sidecar-proxy of the first have one ServiceID: after a pass with no
    failing call the two registrations completed, the sidecar-proxy of the
    second pod is held and its primary is not. And with well-named
    instances, a deregistration whose second call is refused leaves the
    sidecar-proxy, registered by a completed operation, without its
    primary. *)
Lemma pairing_invariant_counterexample :
  let r := pass collidingWorld noCallFailure collidingKey ∅ in
  let created := pass createdWorld noCallFailure createdKey ∅ in
  let deleted :=
    pass deletedWorld (refusing "10.0.0.1" "pod1-service-created-sidecar-proxy")
      createdKey created.1 in
  (reaches anyNames r.2 r.1 /\
   succeeded <$> r.2 = [true; true] /\
   lastOn r.2 "10.0.0.1" "kube" (ServiceID instanceB)
     = Some {| attempted := Register "10.0.0.1" instanceB; succeeded := true |} /\
   ServiceID instanceB = ServiceID (sidecarOf instanceA) /\
   instances (store r.1 "10.0.0.1" "kube") !! ServiceID (sidecarOf instanceB)
     = Some (sidecarOf instanceB) /\
   instances (store r.1 "10.0.0.1" "kube") !! ServiceID instanceB
     = Some (sidecarOf instanceA)) /\
  (reaches wellNamed (created.2 ++ deleted.2) deleted.1 /\
   succeeded <$> created.2 = [true; true] /\
   instances (store deleted.1 "10.0.0.1" "kube") !! "pod1-service-created-sidecar-proxy"
     = Some (sidecarOf instance1) /\
   instances (store deleted.1 "10.0.0.1" "kube") !! "pod1-service-created" = None).
Proof.
  intros r created deleted. split.
  - split; [|repeat (apply conj; [vm_compute; reflexivity|]); vm_compute; reflexivity].
    exact (reaches_pass anyNames collidingWorld noCallFailure collidingKey [] ∅ eq_refl
             (reaches_empty anyNames)).
  - split; [|repeat (apply conj; [vm_compute; reflexivity|]); vm_compute; reflexivity].
    assert (Hc : wellNamed createdWorld createdKey = true) by (vm_compute; reflexivity).
    assert (Hd : wellNamed deletedWorld createdKey = true) by (vm_compute; reflexivity).
    exact (reaches_pass wellNamed deletedWorld _ createdKey created.2 created.1 Hd
             (reaches_pass wellNamed createdWorld noCallFailure createdKey [] ∅ Hc
                (reaches_empty wellNamed))).
Qed.

End WireScenarios.

(* ===================================================================== *)
(** * Further properties of cluster_types.go *)
(* ===================================================================== *)

Section FinalizerAlgebra.

Import V1alpha1.

(** What [RemoveFinalizer] stores: the kept finalizers, or the nil slice
    when none is kept. *)
Lemma RemoveFinalizer_stores (n : string) (c : Cluster) :
  RemoveFinalizer n c
  = setFinalizers
      (match List.filter (fun f => negb (String.eqb f n)) (elems (Finalizers c)) with
       | [] => nilSlice
       | kept => Slice kept
       end) c.
Proof. unfold RemoveFinalizer. by rewrite RemoveFinalizer_loop_nil. Qed.

Lemma elems_kept (l : list string) :
  elems (match l with [] => nilSlice | f :: kept => Slice (f :: kept) end) = l.
Proof. by destruct l. Qed.

Lemma filter_swap (a b : string) (l : list string) :
  List.filter (fun f => negb (String.eqb f a)) (List.filter (fun f => negb (String.eqb f b)) l)
  = List.filter (fun f => negb (String.eqb f b)) (List.filter (fun f => negb (String.eqb f a)) l).
Proof.
  induction l as [|f l IH]; simpl; [done|].
  destruct (String.eqb f b) eqn:Hb, (String.eqb f a) eqn:Ha; simpl;
    rewrite ?Ha, ?Hb; simpl; by rewrite IH.
Qed.

(** Removals commute, and a removal commutes with the addition of another
    name, on the whole resource (nil slices included). *)
Theorem RemoveFinalizer_commutes (c : Cluster) (a b : string) :
  RemoveFinalizer a (RemoveFinalizer b c) = RemoveFinalizer b (RemoveFinalizer a c) /\
  (a <> b ->
   RemoveFinalizer a (AddFinalizer b c) = AddFinalizer b (RemoveFinalizer a c)).
Proof.
  split.
  - rewrite (RemoveFinalizer_stores a (RemoveFinalizer b c)).
    rewrite (RemoveFinalizer_stores b (RemoveFinalizer a c)).
    rewrite (RemoveFinalizer_stores b c), (RemoveFinalizer_stores a c).
    rewrite !Finalizers_setFinalizers, !elems_kept, !setFinalizers_twice.
    by rewrite filter_swap.
  - intros Hne.
    rewrite (RemoveFinalizer_stores a (AddFinalizer b c)).
    unfold AddFinalizer.
    rewrite (RemoveFinalizer_stores a c).
    rewrite !Finalizers_setFinalizers, !setFinalizers_twice.
    unfold append. rewrite elems_kept. simpl elems.
    rewrite List.filter_app. simpl.
    destruct (String.eqb_spec b a) as [->|_]; [done|]. simpl.
    by destruct (List.filter _ (elems (Finalizers c))).
Qed.

(** AddFinalizer does not look for an entry of the same name: the number of
    occurrences of the added name grows by one, also when it was there.
    RemoveFinalizer drops every occurrence of the name and no occurrence of
    another name. *)
Theorem finalizers_count (c : Cluster) (n m : string) :
  count_occ string_dec (elems (Finalizers (AddFinalizer n c))) m
  = (count_occ string_dec (elems (Finalizers c)) m + (if String.eqb m n then 1 else 0))%nat /\
  count_occ string_dec (elems (Finalizers (RemoveFinalizer n c))) m
  = (if String.eqb m n then 0 else count_occ string_dec (elems (Finalizers c)) m)%nat.
Proof.
  split.
  - unfold AddFinalizer. rewrite Finalizers_setFinalizers. simpl.
    rewrite count_occ_app. simpl.
    destruct (string_dec n m) as [->|Hne].
    + by rewrite String.eqb_refl.
    + destruct (String.eqb_spec m n) as [->|_]; [done|]. done.
  - rewrite RemoveFinalizer_stores, Finalizers_setFinalizers, elems_kept.
    induction (elems (Finalizers c)) as [|f l IH]; simpl.
    + by destruct (String.eqb m n).
    + destruct (String.eqb_spec f n) as [->|Hfn]; simpl.
      * rewrite IH. destruct (string_dec n m) as [->|Hne].
        -- by rewrite String.eqb_refl.
        -- done.
      * rewrite IH. destruct (string_dec f m) as [->|Hne].
        -- destruct (String.eqb_spec m n) as [->|_]; [done|]. done.
        -- done.
Qed.

Section MatchingMore.

Variable meta : string -> option (gmap string string).

(** The config entry of a resource matches another resource exactly when
    both have the same name and the same spec. *)
Theorem MatchesConsul_between (c c' : Cluster) (d : string) :
  MatchesConsul meta c (ToConsul meta c' d) = true <->
  KubernetesName c = KubernetesName c' /\ Spec c = Spec c'.
Proof.
  unfold ToConsul. rewrite MatchesConsul_fields. simpl.
  rewrite andb_true_iff, String.eqb_eq, Bool.eqb_true_iff.
  unfold ConsulName, KubernetesName.
  destruct (Spec c) as [[x]], (Spec c') as [[y]]. simpl.
  split; intros [Hn Hs]; (split; [done|]); congruence.
Qed.

End MatchingMore.
End FinalizerAlgebra.

Section StatusFacts.

Import V1alpha1.

Variable synced : string.

(** The status updates compose: the last synced condition set replaces
    whatever conditions were there, the last synced time set wins, the two
    updates commute with each other and with the finalizer updates, and
    neither touches the metadata or the spec. *)
Theorem SetSyncedCondition_overwrites (c : Cluster) (now now' : Z)
    (st st' : ConditionStatus) (r r' m m' : string) (t t' : option Z) (n : string) :
  let set := SetSyncedCondition synced now st r m in
  length (Conditions (status (set c))) = 1%nat /\
  (forall cond, cond ∈ Conditions (status (set c)) ->
     Type_ cond = synced /\ CondStatus cond = st /\ LastTransitionTime cond = now /\
     CondReason cond = r /\ CondMessage cond = m) /\
  set (SetSyncedCondition synced now' st' r' m' c) = set c /\
  SetLastSyncedTime t (SetLastSyncedTime t' c) = SetLastSyncedTime t c /\
  SetLastSyncedTime t (set c) = set (SetLastSyncedTime t c) /\
  LastSyncedTime (status (set c)) = LastSyncedTime (status c) /\
  LastSyncedTime (status (SetLastSyncedTime t c)) = t /\
  Conditions (status (SetLastSyncedTime t c)) = Conditions (status c) /\
  AddFinalizer n (set c) = set (AddFinalizer n c) /\
  RemoveFinalizer n (set c) = set (RemoveFinalizer n c) /\
  AddFinalizer n (SetLastSyncedTime t c) = SetLastSyncedTime t (AddFinalizer n c) /\
  RemoveFinalizer n (SetLastSyncedTime t c) = SetLastSyncedTime t (RemoveFinalizer n c) /\
  ObjectMeta (set c) = ObjectMeta c /\ Spec (set c) = Spec c /\
  ObjectMeta (SetLastSyncedTime t c) = ObjectMeta c /\ Spec (SetLastSyncedTime t c) = Spec c.
Proof.
  simpl. split; [done|]. split.
  - intros cond Hc. apply list_elem_of_singleton in Hc. by subst cond.
  - repeat split.
Qed.

Variable meta : string -> option (gmap string string).

(** The finalizer and status updates, and DefaultNamespaceFields, change
    neither the config entry of the resource nor what it matches, nor its
    name, and Validate accepts the resource before and after. *)
Theorem ToConsul_ignores_bookkeeping (c : Cluster) (d : string)
    (candidate : Capi.ConfigEntry) (n r m : string) (now : Z) (st : ConditionStatus)
    (t : option Z) (b1 b2 : bool) (s1 s2 : string) :
  Forall (fun update : Cluster -> Cluster =>
            ToConsul meta (update c) d = ToConsul meta c d /\
            MatchesConsul meta (update c) candidate = MatchesConsul meta c candidate /\
            KubernetesName (update c) = KubernetesName c /\
            ConsulName (update c) = ConsulName c /\
            Validate (update c) b1 = None)
    [ AddFinalizer n;
      RemoveFinalizer n;
      SetSyncedCondition synced now st r m;
      SetLastSyncedTime t;
      fun c' => DefaultNamespaceFields c' b1 s1 b2 s2 ].
Proof. repeat constructor. Qed.

Variable GetCondition : Status -> string -> option Condition.

(** Provided [GetCondition] returns the only condition of a status when its
    type is asked, the synced condition read after SetSyncedCondition is the
    one that was set, also after a later finalizer or synced-time update;
    and SyncedConditionStatus is always the status SyncedCondition returns. *)
Theorem SyncedCondition_after_set (c : Cluster) (now : Z) (st : ConditionStatus)
    (r m : string) :
  (forall cond lst, Type_ cond = synced ->
     GetCondition {| Conditions := [cond]; LastSyncedTime := lst |} synced = Some cond) ->
  let c' := SetSyncedCondition synced now st r m c in
  SyncedCondition synced GetCondition c' = (st, r, m) /\
  SyncedConditionStatus synced GetCondition c' = st /\
  (forall t n,
     SyncedCondition synced GetCondition (SetLastSyncedTime t (AddFinalizer n c')) = (st, r, m)) /\
  (forall c0, SyncedConditionStatus synced GetCondition c0
              = (SyncedCondition synced GetCondition c0).1.1).
Proof.
  intros Hget. simpl.
  unfold SyncedCondition, SyncedConditionStatus, SetSyncedCondition. simpl.
  rewrite !Hget by done. simpl.
  split; [done|]. split; [done|]. split; [intros t n; by rewrite Hget|].
  intros c0. by destruct (GetCondition (status c0) synced).
Qed.

End StatusFacts.

Section StatusInstances.
Import V1alpha1 Fixtures.

(** The round trip with the lookup that returns the first condition of the
    type asked, as TestCluster_GetSyncedConditionStatus expects it. *)
Lemma SyncedCondition_after_set_witness :
  let get := fun (s : Status) (t : string) =>
               List.find (fun cond => String.eqb (Type_ cond) t) (Conditions s) in
  SyncedCondition "Synced" get
    (SetSyncedCondition "Synced" 1 ConditionTrue "reason" "message" (clusterNamed "cluster"))
  = (ConditionTrue, "reason", "message").
Proof.
  simpl.
  refine (proj1 (SyncedCondition_after_set "Synced"
           (fun s t => List.find (fun cond => String.eqb (Type_ cond) t) (Conditions s))
           (clusterNamed "cluster") 1 ConditionTrue "reason" "message" _)).
  intros cond lst Ht. simpl. rewrite Ht. reflexivity.
Defined.

End StatusInstances.

(* ===================================================================== *)
(** * Further properties of the admission webhook *)
(* ===================================================================== *)

Section AdmissionFacts.

Import V1alpha1 Apiserver.

(** The webhook reads its decoder, the operation and, for a creation under
    the right name, the client; nothing else. *)
Theorem Handle_reads (v v' : ClusterWebhook) (d : Admission.Request -> result Cluster)
    (req : Admission.Request) :
  (InjectDecoder d v).2 = None /\
  (client v' = client v ->
   Handle (InjectDecoder d v').1 req = Handle (InjectDecoder d v).1 req) /\
  (Admission.Operation req <> Admissionv1.Create \/
   match d req with
   | Ok cluster => KubernetesName cluster <> Common.Cluster
   | Err _ => True
   end ->
   Handle (InjectDecoder d v').1 req = Handle (InjectDecoder d v).1 req).
Proof.
  split; [done|]. split.
  - intros Hc. unfold Handle. simpl. by rewrite Hc.
  - intros Hcase. unfold Handle. simpl.
    destruct (d req) as [cluster|err]; [|done].
    destruct (Admission.Operation req); simpl; try done.
    destruct Hcase as [Hop|Hname]; [done|].
    destruct (String.eqb_spec (KubernetesName cluster) Common.Cluster); done.
Qed.

Variable nsOn mirrorOn : bool.


(** A creation is stored only on an empty list and under the name
    "cluster". *)
Lemma create_cases (stored : list Cluster) (r : CreateRequest) :
  create nsOn mirrorOn stored r = stored \/
  (stored = [] /\ exists c, decoded r = Ok c /\ KubernetesName c = Common.Cluster /\
                            create nsOn mirrorOn stored r = [c]).
Proof.
  unfold Apiserver.create.
  destruct (decoded r) as [c|err] eqn:Hdec.
  - rewrite (Handle_create _ _ c) by (simpl; done).
    destruct (String.eqb_spec (KubernetesName c) Common.Cluster) as [Hn|Hn]; simpl; [|by left].
    destruct (listError r); simpl; [by left|].
    destruct stored; simpl; [|by left].
    right. split; [done|]. by exists c.
  - left. by destruct (Admission.Allowed _).
Qed.

(** One event keeps the bound and the names. *)
Lemma apply_keeps (stored : list Cluster) (e : Event) :
  (length stored <= 1)%nat ->
  (length (apply nsOn mirrorOn stored e) <= 1)%nat /\
  (forall c, c ∈ apply nsOn mirrorOn stored e -> c ∈ stored \/ KubernetesName c = Common.Cluster).
Proof.
  intros Hlen. destruct e as [r|i]; simpl.
  - destruct (create_cases stored r) as [->|(-> & c & _ & Hn & ->)].
    + split; [done|]. by left.
    + split; [done|]. intros c' Hc. apply list_elem_of_singleton in Hc. subst c'. by right.
  - split.
    + pose proof (sublist_length _ _ (sublist_delete stored i)). lia.
    + intros c Hc. left. by eapply list_elem_of_delete_inv.
Qed.

(** With creations admitted by the webhook, a server that holds at most
    one Cluster resource never holds more than one, whatever is created
    and deleted; every resource that was not there from the start is named
    "cluster"; on an empty server such a resource is stored. *)
Theorem at_most_one_cluster (stored : list Cluster) (events : list Event) :
  (length stored <= 1)%nat ->
  (length (run nsOn mirrorOn stored events) <= 1)%nat /\
  (forall c, c ∈ run nsOn mirrorOn stored events -> c ∈ stored \/ KubernetesName c = Common.Cluster) /\
  (forall req c, KubernetesName c = Common.Cluster ->
     run nsOn mirrorOn [] [CreateCluster {| request := req; decoded := Ok c; listError := None |}] = [c]).
Proof.
  intros Hlen. split; [|split].
  - revert stored Hlen. induction events as [|e es IH]; intros stored Hlen; simpl; [done|].
    apply IH. by apply apply_keeps.
  - revert stored Hlen. induction events as [|e es IH]; intros stored Hlen c; simpl.
    + by left.
    + intros Hc. destruct (apply_keeps stored e Hlen) as [Hlen' Hsub].
      destruct (IH _ Hlen' c Hc) as [Hin|Hn]; [|by right]. by apply Hsub.
  - intros req c Hn. unfold Apiserver.run, Apiserver.apply, Apiserver.create. simpl.
    rewrite (Handle_create _ _ c) by done. simpl.
    unfold KubernetesName in Hn. unfold KubernetesName. by rewrite Hn.
Qed.

End AdmissionFacts.

Section AdmissionInstances.
Import V1alpha1 Apiserver Fixtures.

(** Two creations in a row: the second is refused. *)
Lemma at_most_one_cluster_witness :
  let first := {| request := requestFor Admissionv1.Create (clusterNamed "cluster");
                  decoded := Ok (clusterNamed "cluster"); listError := None |} in
  let second := {| request := requestFor Admissionv1.Create (clusterNamed "cluster");
                  decoded := Ok (setFinalizers (Slice ["f"]) (clusterNamed "cluster"));
                  listError := None |} in
  run false false [] [CreateCluster first; CreateCluster second] = [clusterNamed "cluster"] /\
  (length (run false false [] [CreateCluster first; CreateCluster second]) <= 1)%nat.
Proof.
  intros first second. split; [reflexivity|].
  refine (proj1 (at_most_one_cluster false false []
                   [CreateCluster first; CreateCluster second] _)).
  simpl. lia.
Defined.

End AdmissionInstances.

(* ===================================================================== *)
(** * The escaping of JSON pointers in the handler's tests *)
(* ===================================================================== *)

Section EscapeFacts.

Import Strings ConnectInject.

(** The two passes of [escapeJSONPointer] amount to one pass that escapes
    byte by byte. *)
Lemma escapeJSONPointer_cons (c : ascii) (s : string) :
  escapeJSONPointer (String c s)
  = if Ascii.eqb c "~" then String "~" (String "0" (escapeJSONPointer s))
    else if Ascii.eqb c "/" then String "~" (String "1" (escapeJSONPointer s))
    else String c (escapeJSONPointer s).
Proof.
  unfold escapeJSONPointer, ReplaceAll.
  cbn [replaceFrom HasPrefix String.length Nat.sub].
  rewrite (Ascii.eqb_sym "~" c), andb_true_r.
  destruct (Ascii.eqb_spec c "~") as [->|Htilde].
  - reflexivity.
  - cbn [replaceFrom HasPrefix String.length Nat.sub].
    rewrite (Ascii.eqb_sym "/" c), andb_true_r.
    destruct (Ascii.eqb_spec c "/") as [->|Hslash]; reflexivity.
Qed.

(** No "/" is left in the escaped key. *)
Lemma escapeJSONPointer_no_slash (s : string) (i : nat) :
  String.get i (escapeJSONPointer s) <> Some "/"%char.
Proof.
  revert i. induction s as [|c s IH]; intros i; [by destruct i|].
  rewrite escapeJSONPointer_cons.
  destruct (Ascii.eqb_spec c "~") as [->|Htilde];
    [|destruct (Ascii.eqb_spec c "/") as [->|Hslash]].
  - destruct i as [|[|i]]; simpl; [done|done|apply IH].
  - destruct i as [|[|i]]; simpl; [done|done|apply IH].
  - destruct i as [|i]; simpl; [congruence|apply IH].
Qed.

(** The escaped key is one reference token: it holds no "/", every "~" in
    it is followed by "0" or "1", and in the path of a patch every "/" lies
    in the parent part. *)
Theorem escapeJSONPointer_token (s : string) :
  (forall i, String.get i (escapeJSONPointer s) <> Some "/"%char) /\
  (forall i, String.get i (escapeJSONPointer s) = Some "~"%char ->
     String.get (S i) (escapeJSONPointer s) = Some "0"%char \/
     String.get (S i) (escapeJSONPointer s) = Some "1"%char) /\
  (forall parent i, String.get i (patchPath parent s) = Some "/"%char ->
     (i < String.length parent)%nat).
Proof.
  split; [apply escapeJSONPointer_no_slash|]. split.
  - induction s as [|c s IH]; intros i; [by destruct i|].
    rewrite escapeJSONPointer_cons.
    destruct (Ascii.eqb_spec c "~") as [->|Htilde];
      [|destruct (Ascii.eqb_spec c "/") as [->|Hslash]].
    + destruct i as [|[|i]]; simpl; [by left|done|apply IH].
    + destruct i as [|[|i]]; simpl; [by right|done|apply IH].
    + destruct i as [|i]; simpl; [congruence|apply IH].
  - unfold patchPath. intros parent.
    induction parent as [|a parent IH]; intros i; simpl.
    + intros Hget. by apply escapeJSONPointer_no_slash in Hget.
    + destruct i as [|i]; [lia|]. intros Hget. apply IH in Hget. lia.
Qed.

(** The first pass of the decoding undoes the second pass of the escaping. *)
Lemma unescape_first_pass (s : string) :
  ReplaceAll (escapeJSONPointer s) "~1" "/" = ReplaceAll s "~" "~0".
Proof.
  induction s as [|c s IH]; [done|].
  rewrite escapeJSONPointer_cons. unfold ReplaceAll in *.
  destruct (Ascii.eqb_spec c "~") as [->|Htilde];
    [|destruct (Ascii.eqb_spec c "/") as [->|Hslash]].
  - cbn. rewrite IH. reflexivity.
  - cbn. rewrite IH. reflexivity.
  - cbn [String.append replaceFrom HasPrefix String.length Nat.sub].
    rewrite (Ascii.eqb_sym "~" c), (proj2 (Ascii.eqb_neq c "~") Htilde).
    cbn [andb]. by rewrite IH.
Qed.

(** The second pass of the decoding undoes the first pass of the escaping. *)
Lemma unescape_second_pass (s : string) :
  ReplaceAll (ReplaceAll s "~" "~0") "~0" "~" = s.
Proof.
  unfold ReplaceAll.
  induction s as [|c s IH]; [done|].
  cbn [replaceFrom HasPrefix String.length Nat.sub].
  rewrite (Ascii.eqb_sym "~" c), andb_true_r.
  destruct (Ascii.eqb_spec c "~") as [->|Htilde].
  - change ("~0" +:+ ?x) with (String "~" (String "0" x)).
    cbn. change ("~" +:+ ?x) with (String "~" x). by rewrite IH.
  - cbn [replaceFrom HasPrefix String.length Nat.sub].
    rewrite (Ascii.eqb_sym "~" c), (proj2 (Ascii.eqb_neq c "~") Htilde).
    cbn [andb]. by rewrite IH.
Qed.

(** Decoding the escaped key as RFC 6901 prescribes gives the key back, so
    two keys with the same escaping are the same key. *)
Theorem escapeJSONPointer_roundtrip (s : string) :
  unescapeJSONPointer (escapeJSONPointer s) = s /\
  (forall s', escapeJSONPointer s = escapeJSONPointer s' -> s = s').
Proof.
  assert (Hrt : forall k, unescapeJSONPointer (escapeJSONPointer k) = k).
  { intros k. unfold unescapeJSONPointer.
    by rewrite unescape_first_pass, unescape_second_pass. }
  split; [apply Hrt|].
  intros s' Heq. by rewrite <- (Hrt s), Heq, Hrt.
Qed.

(** Each byte is escaped to one or two bytes. *)
Lemma escapeJSONPointer_length (s : string) :
  (String.length s <= String.length (escapeJSONPointer s) <= 2 * String.length s)%nat.
Proof.
  induction s as [|c s IH]; [simpl; lia|].
  rewrite escapeJSONPointer_cons.
  destruct (Ascii.eqb c "~"); [|destruct (Ascii.eqb c "/")]; simpl; lia.
Qed.

(** Escaping goes through concatenation, at most doubles the length, and
    changes exactly the keys that hold a "~" or a "/". *)
Theorem escapeJSONPointer_append (a b : string) :
  escapeJSONPointer (a +:+ b) = escapeJSONPointer a +:+ escapeJSONPointer b /\
  (String.length a <= String.length (escapeJSONPointer a) <= 2 * String.length a)%nat /\
  (escapeJSONPointer a = a <->
   forall i, String.get i a <> Some "~"%char /\ String.get i a <> Some "/"%char).
Proof.
  split; [|split; [apply escapeJSONPointer_length|]].
  - induction a as [|c a IH]; [done|].
    change (String c a +:+ b) with (String c (a +:+ b)).
    rewrite !escapeJSONPointer_cons, IH.
    by destruct (Ascii.eqb c "~"); [|destruct (Ascii.eqb c "/")].
  - clear b. induction a as [|c a IH].
    + split; [|done]. intros _ i. by destruct i.
    + rewrite escapeJSONPointer_cons.
      destruct (Ascii.eqb_spec c "~") as [->|Htilde];
        [|destruct (Ascii.eqb_spec c "/") as [->|Hslash]].
      * split.
        -- intros Heq. simpl in Heq. injection Heq as Heq.
           pose proof (escapeJSONPointer_length a) as Hlen.
           apply (f_equal String.length) in Heq. simpl in Heq. lia.
        -- intros Hall. by destruct (Hall 0%nat) as [Hne _].
      * split; [done|].
        intros Hall. by destruct (Hall 0%nat) as [_ Hne].
      * simpl. split.
        -- intros Heq. injection Heq as Heq.
           pose proof (proj1 IH Heq) as Hall.
           intros [|i]; simpl; [split; congruence|apply Hall].
        -- intros Hall. f_equal. apply (proj2 IH). intros i. apply (Hall (S i)).
Qed.

End EscapeFacts.
